(** * Message ports, the transfer codec and structuredClone

    A shallow embedding of [13_message_port.js] (MessageChannel, MessagePort,
    serializeJsMessageData, deserializeJsMessageData, structuredClone).

    JavaScript objects live in a heap indexed by locations; a thrown
    exception leaves the mutations made so far in place, so every operation
    is a state transformer that returns the new state together with either a
    value or the exception.  Everything the module does to the outside world
    (transport ops, callbacks, listeners being called) is appended to a
    trace, in program order.

    The timer registry of [timers.ts] is embedded in module [Timers], over a
    finite map from timer ids to timers. *)

From Stdlib Require Import ZArith Lia.
From stdpp Require Import base list strings pretty gmap.

Open Scope Z_scope.
Open Scope nat_scope.

(** ** Exceptions *)

Inductive exn :=
| DOMException (message name : string)
| TypeError (message : string)
| Interrupted
| TransportError (message : string).

#[global] Instance exn_eq_dec : EqDecision exn.
Proof. solve_decision. Defined.

Inductive result (A : Type) :=
| Ok (a : A)
| Throw (e : exn).
Arguments Ok {A} a.
Arguments Throw {A} e.

(** ** Callbacks and listeners *)

(** A function handed to the module as a callback.  The module does nothing
    with it but call it, and all it sees of a call is whether it returns or
    throws: [cb_throws] is what a call of the function throws, [None] when it
    returns.  Callbacks do not call back into the module. *)
Record callback := mkCallback {
  cb_name : nat;
  cb_throws : option exn
}.

#[global] Instance callback_eq_dec : EqDecision callback.
Proof. solve_decision. Defined.

(** The callback [n] that returns. *)
Definition returning (n : nat) : callback := mkCallback n None.


Definition listener := nat.

(** ** JavaScript values and the heap *)

Abbreviation loc := nat (only parsing).

(** A transport id ([number], a resource id). *)
Definition rid := Z.

(** Primitive values.  Numbers are the integer-valued ones. *)
Inductive prim :=
| PUndefined
| PNull
| PBool (b : bool)
| PNumber (n : Z)
| PString (s : string).

Inductive value :=
| VPrim (p : prim)
| VRef (l : loc).

(** An ArrayBuffer: its bytes (byteLength is their number) and whether its
    backing store was moved away. *)
Record ArrayBuffer := mkArrayBuffer {
  ab_bytes : list Byte.byte;
  ab_detached : bool
}.

(** The own state of a MessagePort.  Ports are made by [createBranded], which
    does not run the constructor: every flag starts out falsy and
    [nodeWorkerThreadCloseCb] is not a function until someone assigns one.
    [listeners] is the EventTarget data installed by [setEventTargetData]. *)
Record MessagePort := mkMessagePort {
  _id : option rid;
  _enabled : bool;
  _refed : bool;
  MessagePortReceiveMessageOnPortSymbol : bool;
  nodeWorkerThreadCloseCb : option callback;
  nodeWorkerThreadCloseCbInvoked : bool;
  listeners : list (string * listener)
}.

Inductive obj :=
| OPlain (fields : list (string * value))
| OArrayBuffer (b : ArrayBuffer)
| OMessagePort (p : MessagePort)
| OFunction (f : callback).

Abbreviation heap_t := (list obj) (only parsing).

(** ** The envelope *)

(** The moved backing store a buffer descriptor carries. *)
Definition backing_store := list Byte.byte.

(** Serialized payload.  The byte layout is the codec's business; what the
    model keeps of it is the graph it encodes: the nodes that were copied,
    with references among them by node index, and references to out-of-band
    objects by their position in the side tables. *)
Inductive svalue :=
| SPrim (p : prim)
| SNode (i : nat)
| SHostObject (i : nat)
| STransferredBuffer (i : nat).

Inductive snode :=
| SObject (fields : list (string * svalue))
| SArrayBuffer (bytes : list Byte.byte).

Record serialized := mkSerialized {
  sroot : svalue;
  snodes : list snode
}.

(** [messagePort.Transferable]: [{kind: "messagePort", data: id}] or
    [{kind: "arrayBuffer", data: buffer}]; any other [kind] is what the
    [default:] branch of deserializeJsMessageData sees.  The data of an
    arrayBuffer descriptor is [transferredArrayBuffers[arrayBufferI]], which
    is [undefined] ([None]) out of range. *)
Inductive Transferable :=
| TransferMessagePort (data : rid)
| TransferArrayBuffer (data : option backing_store)
| TransferOther (kind : string).

Record MessageData := mkMessageData {
  md_data : serialized;
  md_transferables : list Transferable
}.

(** ** Events, effects and the state *)

Inductive event_data :=
| DataValue (v : value)
| DataError (e : exn).

Record MessageEvent := mkMessageEvent {
  ev_type : string;
  ev_data : event_data;
  ev_ports : list value
}.

Inductive effect :=
| EffCreateEntangled (ids : rid * rid)
| EffPostMessage (id : rid) (data : MessageData)
| EffRecvMessage (id : rid)
| EffClose (id : rid)
| EffCloseCb (cb : callback)
| EffListener (l : listener) (target : loc) (ev : MessageEvent).

Record state := mkState {
  heap : heap_t;
  messageEventListenerCount : Z;
  trace : list effect
}.

Definition set_heap (h : heap_t) (s : state) : state :=
  mkState h (messageEventListenerCount s) (trace s).

Definition set_count (n : Z) (s : state) : state :=
  mkState (heap s) n (trace s).

Definition emit (e : effect) (s : state) : state :=
  mkState (heap s) (messageEventListenerCount s) (trace s ++ [e]).

(** ** The state-and-exception monad *)

Definition M (A : Type) : Type := state → state * result A.

Definition ret {A} (a : A) : M A := fun s => (s, Ok a).

Definition throw {A} (e : exn) : M A := fun s => (s, Throw e).

Definition bind {A B} (m : M A) (k : A → M B) : M B :=
  fun s =>
    match m s with
    | (s1, Ok a) => k a s1
    | (s1, Throw e) => (s1, Throw e)
    end.

Definition get_state : M state := fun s => (s, Ok s).

Definition modify (f : state → state) : M unit := fun s => (f s, Ok tt).

Notation "x ←' m ;; k" := (bind m (fun x => k))
  (at level 100, m at next level, right associativity).
Notation "m ;;' k" := (bind m (fun _ => k))
  (at level 100, right associativity).

(** ** Looking at objects *)

Definition isArrayBuffer (h : heap_t) (t : loc) : bool :=
  match h !! t with Some (OArrayBuffer _) => true | _ => false end.

(** [ObjectPrototypeIsPrototypeOf(MessagePortPrototype, t)] *)
Definition isMessagePort (h : heap_t) (t : loc) : bool :=
  match h !! t with Some (OMessagePort _) => true | _ => false end.

Definition ArrayBufferPrototypeGetByteLength (h : heap_t) (t : loc) : nat :=
  match h !! t with Some (OArrayBuffer b) => length (ab_bytes b) | _ => 0 end.

(** Modelled from the spec: [isDetachedBuffer] of 06_streams.js, which is
    not part of this module; the buffer's backing store has been moved
    away. *)
Definition isDetachedBuffer (h : heap_t) (t : loc) : bool :=
  match h !! t with Some (OArrayBuffer b) => ab_detached b | _ => false end.

Definition get_port (h : heap_t) (l : loc) : option MessagePort :=
  match h !! l with Some (OMessagePort p) => Some p | _ => None end.

Definition port_id (s : state) (l : loc) : option rid :=
  match get_port (heap s) l with Some p => _id p | None => None end.

Definition port_enabled (s : state) (l : loc) : bool :=
  match get_port (heap s) l with Some p => _enabled p | None => false end.

Definition port_refed (s : state) (l : loc) : bool :=
  match get_port (heap s) l with Some p => _refed p | None => false end.

Definition update_port (l : loc) (f : MessagePort → MessagePort) (s : state) : state :=
  match get_port (heap s) l with
  | Some p => set_heap (<[l := OMessagePort (f p)]> (heap s)) s
  | None => s
  end.

Definition set_id (i : option rid) (p : MessagePort) : MessagePort :=
  mkMessagePort i (_enabled p) (_refed p) (MessagePortReceiveMessageOnPortSymbol p)
    (nodeWorkerThreadCloseCb p) (nodeWorkerThreadCloseCbInvoked p) (listeners p).

Definition set_enabled (b : bool) (p : MessagePort) : MessagePort :=
  mkMessagePort (_id p) b (_refed p) (MessagePortReceiveMessageOnPortSymbol p)
    (nodeWorkerThreadCloseCb p) (nodeWorkerThreadCloseCbInvoked p) (listeners p).

Definition set_refed (b : bool) (p : MessagePort) : MessagePort :=
  mkMessagePort (_id p) (_enabled p) b (MessagePortReceiveMessageOnPortSymbol p)
    (nodeWorkerThreadCloseCb p) (nodeWorkerThreadCloseCbInvoked p) (listeners p).

Definition set_receiveMessageOnPort (b : bool) (p : MessagePort) : MessagePort :=
  mkMessagePort (_id p) (_enabled p) (_refed p) b
    (nodeWorkerThreadCloseCb p) (nodeWorkerThreadCloseCbInvoked p) (listeners p).

Definition set_closeCbInvoked (b : bool) (p : MessagePort) : MessagePort :=
  mkMessagePort (_id p) (_enabled p) (_refed p) (MessagePortReceiveMessageOnPortSymbol p)
    (nodeWorkerThreadCloseCb p) b (listeners p).

Definition set_listeners (ls : list (string * listener)) (p : MessagePort) : MessagePort :=
  mkMessagePort (_id p) (_enabled p) (_refed p) (MessagePortReceiveMessageOnPortSymbol p)
    (nodeWorkerThreadCloseCb p) (nodeWorkerThreadCloseCbInvoked p) ls.

(** ** The value codec ([core.serialize] / [core.deserialize]) *)

(** The codec is native code outside this module, so this part is modelled
    from the spec.  The module relies on the codec for three things: it
    copies a value graph, cycles included; it moves the backing stores of
    the buffers listed in [transferredArrayBuffers] out of their buffers
    (writing the moved stores back into that array); and it refers to host
    objects and transferred buffers by their position in the side tables. *)

Record SerializeOptions := mkSerializeOptions {
  hostObjects : list loc;
  transferredArrayBuffers : list loc
}.

Record DeserializeOptions := mkDeserializeOptions {
  d_hostObjects : list loc;
  d_transferredArrayBuffers : list (option backing_store)
}.

Fixpoint index_of (l : loc) (ls : list loc) : option nat :=
  match ls with
  | [] => None
  | x :: ls' => if Nat.eqb x l then Some 0 else S <$> index_of l ls'
  end.

Definition ref_of (kv : string * value) : option loc :=
  match kv.2 with VRef l => Some l | VPrim _ => None end.

(** Modelled from the spec: the objects an object refers to directly. *)
Definition succs (h : heap_t) (l : loc) : list loc :=
  match h !! l with
  | Some (OPlain fields) => omap ref_of fields
  | _ => []
  end.

Definition roots (v : value) : list loc :=
  match v with VRef l => [l] | VPrim _ => [] end.

(** Modelled from the spec: the codec's traversal of the value graph, as a
    work list.  It gives the objects to copy, each once, in the order they
    are first met; objects in [stop] are passed by reference and neither
    copied nor looked into. *)
Fixpoint collect (h : heap_t) (stop : list loc) (fuel : nat)
    (todo seen : list loc) {struct fuel} : option (list loc) :=
  match todo with
  | [] => Some seen
  | l :: todo' =>
    match fuel with
    | 0 => None
    | S fuel' =>
      if bool_decide (l ∈ seen) || bool_decide (l ∈ stop)
      then collect h stop fuel' todo' seen
      else collect h stop fuel' (succs h l ++ todo') (seen ++ [l])
    end
  end.

Definition degree_sum (h : heap_t) (seen : list loc) (ls : list loc) : nat :=
  sum_list (map (fun l => if bool_decide (l ∈ seen) then 0 else length (succs h l)) ls).

(** Every step of [collect] either drops a work item or marks an object and
    adds its references to the work list, so this many steps are enough. *)
Definition collect_fuel (h : heap_t) (todo : list loc) : nat :=
  length todo + degree_sum h [] (seq 0 (length h)).

Definition encode_value (hosts trans nodes : list loc) (v : value) : option svalue :=
  match v with
  | VPrim p => Some (SPrim p)
  | VRef l =>
    match index_of l trans with
    | Some k => Some (STransferredBuffer k)
    | None =>
      match index_of l hosts with
      | Some k => Some (SHostObject k)
      | None => SNode <$> index_of l nodes
      end
    end
  end.

Definition encode_field (hosts trans nodes : list loc) (kv : string * value)
    : option (string * svalue) :=
  (fun sv => (kv.1, sv)) <$> encode_value hosts trans nodes kv.2.

(** Modelled from the spec: plain objects and attached buffers are copied;
    anything else that is not passed by reference cannot be cloned. *)
Definition encode_node (h : heap_t) (hosts trans nodes : list loc) (l : loc)
    : option snode :=
  match h !! l with
  | Some (OPlain fields) => SObject <$> mapM (encode_field hosts trans nodes) fields
  | Some (OArrayBuffer b) =>
    if ab_detached b then None else Some (SArrayBuffer (ab_bytes b))
  | _ => None
  end.

(** Modelled from the spec: the codec moves the listed buffers out, in
    order.  Each one is detached on the spot, and a buffer that is already
    detached when its turn comes (it was detached before, or it is listed
    twice) makes the op throw.  That error is the op's own: it does not go
    through the error callback, and the runtime raises it as a DOMException
    named OperationError. *)
Fixpoint transfer_buffers (h : heap_t) (index : nat) (bufs : list loc)
    : heap_t * (exn + list backing_store) :=
  match bufs with
  | [] => (h, inr [])
  | b :: rest =>
    match h !! b with
    | Some (OArrayBuffer ab) =>
      if ab_detached ab
      then (h, inl (DOMException
                      ("ArrayBuffer at index " +:+ pretty index +:+ " is already detached")
                      "OperationError"))
      else
        match transfer_buffers (<[b := OArrayBuffer (mkArrayBuffer [] true)]> h)
                (S index) rest with
        | (h', inr stores) => (h', inr (ab_bytes ab :: stores))
        | (h', inl err) => (h', inl err)
        end
    | _ => (h, inl (TypeError "item in transferredArrayBuffers not an ArrayBuffer"))
    end
  end.

(** The two ways [core.serialize] fails: it finds a value it cannot clone and
    hands a description to the error callback, or the op itself throws. *)
Inductive serialize_failure :=
| NotClonable (description : string)
| OpThrows (e : exn).

Definition serialize_graph (h : heap_t) (hosts trans : list loc) (v : value)
    : option serialized :=
  nodes ← collect h (hosts ++ trans) (collect_fuel h (roots v)) (roots v) [];
  snodes ← mapM (encode_node h hosts trans nodes) nodes;
  sroot ← encode_value hosts trans nodes v;
  Some (mkSerialized sroot snodes).

(** Modelled from the spec: [core.serialize(value, {hostObjects,
    transferredArrayBuffers})] is native and not part of this module.  It
    returns the heap (transferred buffers are detached even when the call
    fails later), and either how it failed or the payload together with the
    moved stores it wrote back into [transferredArrayBuffers]. *)
Definition core_serialize (h : heap_t) (v : value) (options : option SerializeOptions)
    : heap_t * (serialize_failure + serialized * list backing_store) :=
  let hosts := from_option hostObjects [] options in
  let trans := from_option transferredArrayBuffers [] options in
  match transfer_buffers h 0 trans with
  | (h', inl e) => (h', inl (OpThrows e))
  | (h', inr stores) =>
    match serialize_graph h' hosts trans v with
    | Some payload => (h', inr (payload, stores))
    | None => (h', inl (NotClonable "Value could not be cloned"))
    end
  end.

Definition materialize (store : option backing_store) : option obj :=
  (fun bytes => OArrayBuffer (mkArrayBuffer bytes false)) <$> store.

Definition decode_value (base nbufs nnodes : nat) (hosts : list loc) (sv : svalue)
    : option value :=
  match sv with
  | SPrim p => Some (VPrim p)
  | SNode i => if i <? nnodes then Some (VRef (base + nbufs + i)) else None
  | SHostObject k => VRef <$> hosts !! k
  | STransferredBuffer k => if k <? nbufs then Some (VRef (base + k)) else None
  end.

Definition decode_field (base nbufs nnodes : nat) (hosts : list loc)
    (kv : string * svalue) : option (string * value) :=
  (fun v => (kv.1, v)) <$> decode_value base nbufs nnodes hosts kv.2.

Definition decode_node (base nbufs nnodes : nat) (hosts : list loc) (n : snode)
    : option obj :=
  match n with
  | SObject fields => OPlain <$> mapM (decode_field base nbufs nnodes hosts) fields
  | SArrayBuffer bytes => Some (OArrayBuffer (mkArrayBuffer bytes false))
  end.

(** Modelled from the spec: [core.deserialize(bytes, {hostObjects,
    transferredArrayBuffers})] is native and not part of this module.  It
    allocates a fresh buffer for every moved store and a fresh object for
    every node of the payload, and returns the new heap, the reconstructed
    value and the materialized buffers it wrote back into
    [transferredArrayBuffers]; a reference of the payload with no counterpart
    in the side tables makes it fail. *)
Definition core_deserialize (h : heap_t) (payload : serialized)
    (options : option DeserializeOptions) : option (heap_t * value * list loc) :=
  let hosts := from_option d_hostObjects [] options in
  let stores := from_option d_transferredArrayBuffers [] options in
  let base := length h in
  bufs ← mapM materialize stores;
  objs ← mapM (decode_node base (length bufs) (length (snodes payload)) hosts)
              (snodes payload);
  v ← decode_value base (length bufs) (length (snodes payload)) hosts (sroot payload);
  Some (h ++ bufs ++ objs, v, seq base (length bufs)).

(** ** Helpers the module imports *)

(** [ArrayPrototypePush]: appends, and returns the new length. *)
Definition ArrayPrototypePush {A} (arr : list A) (x : A) : list A * nat :=
  (arr ++ [x], length arr + 1).

(** [arr[i] = x]: replaces in range, appends at the end, and past the end
    pads with holes (which read as [undefined]). *)
Definition js_array_set (arr : list value) (i : nat) (x : value) : list value :=
  if i <? length arr then <[i := x]> arr
  else arr ++ replicate (i - length arr) (VPrim PUndefined) ++ [x].

(** [arr[i]] of an array of objects. *)
Definition js_array_get (arr : list loc) (i : nat) : value :=
  match arr !! i with Some l => VRef l | None => VPrim PUndefined end.

(** [webidl.assertBranded(this, MessagePortPrototype)] *)
Definition assertBranded (this : loc) : M unit :=
  fun s =>
    if isMessagePort (heap s) this then (s, Ok tt)
    else (s, Throw (TypeError "Illegal invocation")).

(** The second argument of [postMessage] and [structuredClone]: an iterable
    of values, or a dictionary whose [transfer] member may be missing. *)
Inductive transferOrOptions_t :=
| ArgSequence (items : list value)
| ArgDictionary (transfer : option (list value)).

(** Modelled from the spec: [webidl.converters["sequence<object>"]]; every
    item of the transfer list has to be an object. *)
Fixpoint sequence_object (items : list value) : M (list loc) :=
  match items with
  | [] => ret []
  | VRef l :: rest => ls ←' sequence_object rest ;; ret (l :: ls)
  | VPrim _ :: _ => throw (TypeError "can not be converted to 'object'")
  end.

(** [webidl.converters.StructuredSerializeOptions], as the module creates
    it: one member, [transfer], a sequence of objects that defaults to []. *)
Definition StructuredSerializeOptions (transfer : option (list value)) : M (list loc) :=
  match transfer with
  | None => ret []
  | Some items => sequence_object items
  end.

(** Modelled from the spec: the event-dispatch base class (02_event.js) is not
    part of this module.  [dispatchEvent] hands the event to every listener
    registered on the target for the event's type, in registration order;
    listeners are observers and do not call back into the port. *)
Definition dispatchEvent (this : loc) (event : MessageEvent) : M unit :=
  fun s =>
    match get_port (heap s) this with
    | Some p =>
      (fold_left (fun s' kl => emit (EffListener kl.2 this event) s')
         (filter (fun kl => kl.1 = ev_type event) (listeners p)) s, Ok tt)
    | None => (s, Ok tt)
    end.

(** Modelled from the spec: [EventTarget.prototype.addEventListener] and
    [removeEventListener] (02_event.js); a listener registered twice for the
    same type is kept once. *)
Definition super_addEventListener (this : loc) (type : string) (l : listener) : M unit :=
  modify (update_port this (fun p =>
    if bool_decide ((type, l) ∈ listeners p) then p
    else set_listeners (listeners p ++ [(type, l)]) p)).

Definition super_removeEventListener (this : loc) (type : string) (l : listener) : M unit :=
  modify (update_port this (fun p =>
    set_listeners (filter (fun kl => kl ≠ (type, l)) (listeners p)) p)).

(** ** 13_message_port.js *)

Definition createMessagePort (id : rid) : M loc :=
  fun s =>
    (set_heap (heap s ++ [OMessagePort (mkMessagePort (Some id) false false false None false [])]) s,
     Ok (length (heap s))).

(** [new MessageChannel()]; [ids] is what [op_message_port_create_entangled]
    answers. *)
Definition MessageChannel (ids : rid * rid) : M (loc * loc) :=
  modify (emit (EffCreateEntangled ids)) ;;'
  port1 ←' createMessagePort ids.1 ;;
  port2 ←' createMessagePort ids.2 ;;
  ret (port1, port2).

(** [port[nodeWorkerThreadCloseCb]()]: the call is recorded, and it returns
    or throws as the function does. *)
Definition call_close_cb (cb : callback) : M unit :=
  fun s =>
    match cb_throws cb with
    | None => (emit (EffCloseCb cb) s, Ok tt)
    | Some e => (emit (EffCloseCb cb) s, Throw e)
    end.

(** The flag is assigned after the call, so only when the call returns. *)
Definition nodeWorkerThreadMaybeInvokeCloseCb (port : loc) : M unit :=
  fun s =>
    match get_port (heap s) port with
    | Some p =>
      match nodeWorkerThreadCloseCb p with
      | Some cb =>
        if negb (nodeWorkerThreadCloseCbInvoked p)
        then (call_close_cb cb ;;'
              modify (update_port port (set_closeCbInvoked true))) s
        else (s, Ok tt)
      | None => (s, Ok tt)
      end
    | None => (s, Ok tt)
    end.

(** The first loop of serializeJsMessageData: [j] counts the buffers met so
    far. *)
Fixpoint serialize_partition_loop (h : heap_t) (transferables : list loc) (j : nat)
    (hostObjects transferredArrayBuffers : list loc) : exn + list loc * list loc :=
  match transferables with
  | [] => inr (hostObjects, transferredArrayBuffers)
  | t :: rest =>
    if isArrayBuffer h t then
      if (ArrayBufferPrototypeGetByteLength h t =? 0) && isDetachedBuffer h t
      then inl (DOMException ("ArrayBuffer at index " +:+ pretty j +:+ " is already detached")
                  "DataCloneError")
      else serialize_partition_loop h rest (S j) hostObjects
             (ArrayPrototypePush transferredArrayBuffers t).1
    else if isMessagePort h t then
      serialize_partition_loop h rest j (ArrayPrototypePush hostObjects t).1
        transferredArrayBuffers
    else serialize_partition_loop h rest j hostObjects transferredArrayBuffers
  end.

(** The second loop of serializeJsMessageData: ports are consumed one by one
    as the loop reaches them. *)
Fixpoint serialize_transferables_loop (transferables : list loc)
    (transferredArrayBuffers : list backing_store) (arrayBufferI : nat)
    (serializedTransferables : list Transferable) : M (list Transferable) :=
  match transferables with
  | [] => ret serializedTransferables
  | transferable :: rest =>
    fun s =>
      if isMessagePort (heap s) transferable then
        match port_id s transferable with
        | None =>
          (s, Throw (DOMException "Can not transfer disentangled message port"
                       "DataCloneError"))
        | Some id =>
          serialize_transferables_loop rest transferredArrayBuffers arrayBufferI
            (ArrayPrototypePush serializedTransferables (TransferMessagePort id)).1
            (update_port transferable (set_id None) s)
        end
      else if isArrayBuffer (heap s) transferable then
        serialize_transferables_loop rest transferredArrayBuffers (S arrayBufferI)
          (ArrayPrototypePush serializedTransferables
             (TransferArrayBuffer (transferredArrayBuffers !! arrayBufferI))).1
          s
      else (s, Throw (DOMException "Value not transferable" "DataCloneError"))
  end.

(** [core.serialize(data, options, err => { throw new DOMException(err,
    "DataCloneError") })]: the callback turns a clonability error into a
    DataCloneError; what the op throws itself passes through as it is. *)
Definition call_core_serialize (data : value) (options : option SerializeOptions)
    : M (serialized * list backing_store) :=
  fun s =>
    match core_serialize (heap s) data options with
    | (h, inr r) => (set_heap h s, Ok r)
    | (h, inl (NotClonable err)) =>
      (set_heap h s, Throw (DOMException err "DataCloneError"))
    | (h, inl (OpThrows e)) => (set_heap h s, Throw e)
    end.

(** The [if (transferables.length > 0) { ... }] block of
    serializeJsMessageData: [options] stays undefined for an empty list. *)
Definition serialize_options (transferables : list loc) : M (option SerializeOptions) :=
  match transferables with
  | [] => ret None
  | _ =>
    fun s =>
      match serialize_partition_loop (heap s) transferables 0 [] [] with
      | inl e => (s, Throw e)
      | inr (hostObjects, transferredArrayBuffers) =>
        (s, Ok (Some (mkSerializeOptions hostObjects transferredArrayBuffers)))
      end
  end.

(** serializeJsMessageData up to and including the call of the codec. *)
Definition serialize_payload (data : value) (transferables : list loc)
    : M (serialized * list backing_store) :=
  options ←' serialize_options transferables ;;
  call_core_serialize data options.

Definition serializeJsMessageData (data : value) (transferables : list loc)
    : M MessageData :=
  r ←' serialize_payload data transferables ;;
  serializedTransferables ←' serialize_transferables_loop transferables r.2 0 [] ;;
  ret (mkMessageData r.1 serializedTransferables).

(** The arrays the first loop of deserializeJsMessageData fills. *)
Record deserialize_acc := mkDeserializeAcc {
  acc_transferables : list value;
  acc_hostObjects : list loc;
  acc_transferredArrayBuffers : list (option backing_store);
  acc_arrayBufferIdsInTransferables : list nat
}.

Fixpoint deserialize_transferables_loop (descriptors : list Transferable)
    (acc : deserialize_acc) : M deserialize_acc :=
  match descriptors with
  | [] => ret acc
  | TransferMessagePort data :: rest =>
    port ←' createMessagePort data ;;
    deserialize_transferables_loop rest
      (mkDeserializeAcc
         (ArrayPrototypePush (acc_transferables acc) (VRef port)).1
         (ArrayPrototypePush (acc_hostObjects acc) port).1
         (acc_transferredArrayBuffers acc)
         (acc_arrayBufferIdsInTransferables acc))
  | TransferArrayBuffer data :: rest =>
    let index := (ArrayPrototypePush (acc_transferables acc) (VPrim PNull)).2 in
    deserialize_transferables_loop rest
      (mkDeserializeAcc
         (ArrayPrototypePush (acc_transferables acc) (VPrim PNull)).1
         (acc_hostObjects acc)
         (ArrayPrototypePush (acc_transferredArrayBuffers acc) data).1
         (ArrayPrototypePush (acc_arrayBufferIdsInTransferables acc) index).1)
  | TransferOther _ :: _ => throw (TypeError "Unreachable")
  end.

(** [core.deserialize(messageData.data, options)] *)
Definition call_core_deserialize (payload : serialized)
    (options : option DeserializeOptions) : M (value * list loc) :=
  fun s =>
    match core_deserialize (heap s) payload options with
    | Some (h, v, bufs) => (set_heap h s, Ok (v, bufs))
    | None => (s, Throw (TypeError "Unable to deserialize"))
    end.

(** The last loop of deserializeJsMessageData:
    [transferables[id] = transferredArrayBuffers[i]]. *)
Fixpoint deserialize_splice_loop (arrayBufferIdsInTransferables : list nat) (i : nat)
    (transferredArrayBuffers : list loc) (transferables : list value) : list value :=
  match arrayBufferIdsInTransferables with
  | [] => transferables
  | id :: rest =>
    deserialize_splice_loop rest (S i) transferredArrayBuffers
      (js_array_set transferables id (js_array_get transferredArrayBuffers i))
  end.

Definition deserializeJsMessageData (messageData : MessageData) : M (value * list value) :=
  acc ←' (match md_transferables messageData with
          | [] => ret (mkDeserializeAcc [] [] [] [])
          | descriptors =>
            deserialize_transferables_loop descriptors (mkDeserializeAcc [] [] [] [])
          end) ;;
  let options :=
    match md_transferables messageData with
    | [] => None
    | _ => Some (mkDeserializeOptions (acc_hostObjects acc)
                   (acc_transferredArrayBuffers acc))
    end in
  r ←' call_core_deserialize (md_data messageData) options ;;
  ret (r.1,
       deserialize_splice_loop (acc_arrayBufferIdsInTransferables acc) 0 r.2
         (acc_transferables acc)).

Definition postMessage (this : loc) (message : value)
    (transferOrOptions : transferOrOptions_t) : M unit :=
  assertBranded this ;;'
  transfer ←' (match transferOrOptions with
               | ArgSequence items => sequence_object items
               | ArgDictionary transfer => StructuredSerializeOptions transfer
               end) ;;
  if bool_decide (this ∈ transfer)
  then throw (DOMException "Can not transfer self" "DataCloneError")
  else
    data ←' serializeJsMessageData message transfer ;;
    s ←' get_state ;;
    match port_id s this with
    | None => ret tt
    | Some id => modify (emit (EffPostMessage id data))
    end.

Definition structuredClone (v : value) (options : option (list value)) : M value :=
  transfer ←' StructuredSerializeOptions options ;;
  messageData ←' serializeJsMessageData v transfer ;;
  r ←' deserializeJsMessageData messageData ;;
  ret r.1.

(** *** The receive loop *)

(** What [await op_message_port_recv_message(id)] resumes with: an envelope,
    [null] (the peer closed cleanly), or a thrown error. *)
Inductive recv_result :=
| RecvData (data : MessageData)
| RecvNull
| RecvThrow (err : exn).

(** Where the async function of [start] stands: suspended at the [await], or
    settled. *)
Inductive task :=
| TaskSuspended (id : rid)
| TaskFulfilled
| TaskRejected (err : exn).

(** [break], followed by the statement after the loop. *)
Definition loop_break (this : loc) : state → state * task :=
  fun s => (update_port this (set_enabled false) s, TaskFulfilled).

(** The top of [while (true)], up to the [await]. *)
Definition loop_head (this : loc) : state → state * task :=
  fun s =>
    match port_id s this with
    | None => loop_break this s
    | Some id => (emit (EffRecvMessage id) s, TaskSuspended id)
    end.

(** [ObjectPrototypeIsPrototypeOf(InterruptedPrototype, err)] *)
Definition isInterrupted (err : exn) : bool :=
  match err with Interrupted => true | _ => false end.

Definition isMessagePortValue (h : heap_t) (t : value) : bool :=
  match t with VRef l => isMessagePort h l | VPrim _ => false end.

(** One turn of the loop, from the point where the [await] resumes.  An
    exception that leaves the async function, the one the close callback
    throws included, rejects the task on the spot. *)
Definition resume (this : loc) (r : recv_result) : state → state * task :=
  fun s =>
    match r with
    | RecvThrow err =>
      if isInterrupted err then
        if match get_port (heap s) this with
           | Some p => MessagePortReceiveMessageOnPortSymbol p
           | None => false
           end
        then loop_head this (update_port this (set_receiveMessageOnPort false) s)
        else loop_break this s
      else
        match nodeWorkerThreadMaybeInvokeCloseCb this s with
        | (s1, Ok _) => (s1, TaskRejected err)
        | (s1, Throw e) => (s1, TaskRejected e)
        end
    | RecvNull =>
      match nodeWorkerThreadMaybeInvokeCloseCb this s with
      | (s1, Ok _) => loop_break this s1
      | (s1, Throw e) => (s1, TaskRejected e)
      end
    | RecvData data =>
      match deserializeJsMessageData data s with
      | (s1, Throw err) =>
        ((dispatchEvent this (mkMessageEvent "messageerror" (DataError err) []) s1).1,
         TaskFulfilled)
      | (s1, Ok (message, transferables)) =>
        loop_head this
          (dispatchEvent this
             (mkMessageEvent "message" (DataValue message)
                (filter (fun t => isMessagePortValue (heap s1) t = true) transferables))
             s1).1
      end
    end.

(** [start()]: [None] when the port is already enabled (no task is made),
    otherwise the task as it stands when [start] returns. *)
Definition start (this : loc) : M (option task) :=
  assertBranded this ;;'
  fun s =>
    if port_enabled s this then (s, Ok None)
    else
      let (s1, t) := loop_head this (update_port this (set_enabled true) s) in
      (s1, Ok (Some t)).

(** The task fed with what the transport answers, one answer per [await]. *)
Fixpoint run_task (this : loc) (answers : list recv_result) (t : task) (s : state)
    : state * task :=
  match t, answers with
  | TaskSuspended _, r :: rest =>
    let (s1, t1) := resume this r s in run_task this rest t1 s1
  | _, _ => (s, t)
  end.

(** The initializer handed to [defineEventHandler(MessagePort.prototype,
    "message", ...)]. *)
Definition message_handler_init (self : loc) : M (option task) := start self.

(** *** ref, close and listeners *)

Definition refMessagePort (this : loc) (ref : bool) : M unit :=
  fun s =>
    if ref && negb (port_refed s this) then
      (set_count (messageEventListenerCount s + 1)
         (update_port this (set_refed true) s), Ok tt)
    else if negb ref && port_refed s this then
      (set_count 0 (update_port this (set_refed false) s), Ok tt)
    else (s, Ok tt).

Definition close (this : loc) : M unit :=
  assertBranded this ;;'
  fun s =>
    match port_id s this with
    | Some id =>
      nodeWorkerThreadMaybeInvokeCloseCb this
        (update_port this (set_id None) (emit (EffClose id) s))
    | None => (s, Ok tt)
    end.

Definition removeEventListener (this : loc) (type : string) (l : listener) : M unit :=
  (if bool_decide (type = "message")
   then modify (fun s => set_count (messageEventListenerCount s - 1) s)
   else ret tt) ;;'
  super_removeEventListener this type l.

Definition addEventListener (this : loc) (type : string) (l : listener) : M unit :=
  (if bool_decide (type = "message")
   then modify (fun s =>
          set_count (messageEventListenerCount s + 1)
            (if port_refed s this then s else update_port this (set_refed true) s))
   else ret tt) ;;'
  super_addEventListener this type l.

(** ** Notions the properties are stated with *)

(** The objects a value reaches through the fields of plain objects. *)
Inductive reachable (h : heap_t) : value → loc → Prop :=
| reachable_root l : reachable h (VRef l) l
| reachable_field v l fields k l' :
    reachable h v l →
    h !! l = Some (OPlain fields) →
    (k, VRef l') ∈ fields →
    reachable h v l'.

Definition cloneable (o : obj) : Prop :=
  match o with
  | OPlain _ => True
  | OArrayBuffer b => ab_detached b = false
  | _ => False
  end.

(** A serializable value: whatever it reaches is a plain object or an
    attached buffer. *)
Definition serializable (h : heap_t) (v : value) : Prop :=
  ∀ l, reachable h v l → ∃ o, h !! l = Some o ∧ cloneable o.

Definition cloneableb (o : obj) : bool :=
  match o with
  | OPlain _ => true
  | OArrayBuffer b => negb (ab_detached b)
  | _ => false
  end.

(** A checker for [serializable]: [candidates] holds the value's roots, is
    closed under references and holds cloneable objects only. *)
Definition serializable_check (h : heap_t) (candidates : list loc) (v : value) : bool :=
  forallb (fun l => bool_decide (l ∈ candidates)) (roots v)
  && forallb (fun l =>
                forallb (fun l' => bool_decide (l' ∈ candidates)) (succs h l)
                && match h !! l with Some o => cloneableb o | None => false end)
       candidates.

Definition val_rel (R : loc → loc → Prop) (v v' : value) : Prop :=
  match v, v' with
  | VPrim p, VPrim p' => p = p'
  | VRef l, VRef l' => R l l'
  | _, _ => False
  end.

Definition obj_rel (R : loc → loc → Prop) (o o' : obj) : Prop :=
  match o, o' with
  | OPlain fields, OPlain fields' =>
    Forall2 (fun kv kv' => kv.1 = kv'.1 ∧ val_rel R kv.2 kv'.2) fields fields'
  | OArrayBuffer b, OArrayBuffer b' => b = b'
  | _, _ => False
  end.

(** Structural equality of [v] in [h] and [v'] in [h']: a one-to-one
    correspondence between the objects they reach under which the values
    agree, corresponding objects have the same keys in the same order with
    corresponding values, and buffers have the same bytes.  Cycles and
    sharing are preserved because the correspondence is one-to-one. *)
Definition structurally_equal (h : heap_t) (v : value) (h' : heap_t) (v' : value) : Prop :=
  ∃ R : loc → loc → Prop,
    val_rel R v v' ∧
    (∀ l l', R l l' → ∃ o o', h !! l = Some o ∧ h' !! l' = Some o' ∧ obj_rel R o o') ∧
    (∀ l l1 l2, R l l1 → R l l2 → l1 = l2) ∧
    (∀ l1 l2 l', R l1 l' → R l2 l' → l1 = l2).

(** [v'] in [h'] shares no storage with the heap [h] it was cloned in: the
    objects of [h] are untouched and [v'] reaches none of them. *)
Definition shares_no_storage (h h' : heap_t) (v' : value) : Prop :=
  h `prefix_of` h' ∧ ∀ l, reachable h' v' l → length h ≤ l.

(** The correspondence a clone sets up: the i-th object that was copied and
    the i-th object allocated from [base] on. *)
Definition clone_rel (nodes : list loc) (base : nat) (l l' : loc) : Prop :=
  ∃ i, nodes !! i = Some l ∧ l' = base + i.

Definition fresh_value (base : nat) (v : value) : Prop :=
  match v with VRef l => base ≤ l | VPrim _ => True end.

Definition fresh_obj (base : nat) (o : obj) : Prop :=
  match o with
  | OPlain fields => Forall (fun kv => fresh_value base kv.2) fields
  | _ => True
  end.



(** The events listener [l] was called with, in order. *)
Definition listener_calls (l : listener) (t : list effect) : list MessageEvent :=
  omap (fun e => match e with
                 | EffListener l' _ ev => if Nat.eqb l' l then Some ev else None
                 | _ => None
                 end) t.



(** What [nodeWorkerThreadMaybeInvokeCloseCb(p)] throws in state [s]: what
    the close callback throws, when it is a function that has not been
    marked invoked; [None] when no call is made or the call returns. *)
Definition close_cb_throws (s : state) (p : loc) : option exn :=
  match get_port (heap s) p with
  | Some port =>
    if nodeWorkerThreadCloseCbInvoked port then None
    else cb ← nodeWorkerThreadCloseCb port; cb_throws cb
  | None => None
  end.

(** A descriptor of a transferred port. *)
Definition is_port_descriptor (d : Transferable) : Prop :=
  match d with TransferMessagePort _ => True | _ => False end.

(** [close()] calls and clean closes seen by the receive loop, in any order. *)
Inductive close_action :=
| ActClose
| ActPeerClosed.

Definition do_close_action (p : loc) (s : state) (a : close_action) : state :=
  match a with
  | ActClose => (close p s).1
  | ActPeerClosed => (resume p RecvNull s).1
  end.

(** The scenario [const {port1, port2} = new MessageChannel();
    port2.addEventListener("message", onMsg); port1.postMessage({a: 1})],
    run in a heap that holds the object [{a: 1}] at location 0; the ports
    are allocated at locations 1 and 2. *)
Definition scenario_heap : list obj := [OPlain [("a", VPrim (PNumber 1))]].

Definition scenario (id1 id2 : rid) (onMsg : listener) : M unit :=
  ports ←' MessageChannel (id1, id2) ;;
  addEventListener ports.2 "message" onMsg ;;'
  postMessage ports.1 (VRef 0) (ArgDictionary None).

(** The envelope [postMessage({a: 1})] hands to the transport. *)
Definition scenario_envelope : MessageData :=
  mkMessageData (mkSerialized (SNode 0) [SObject [("a", SPrim (PNumber 1))]]) [].

(** An entry the second loop of serializeJsMessageData gets past: a buffer,
    or a port that is still entangled. *)
Definition transferable_entry (s : state) (t : loc) : Prop :=
  isArrayBuffer (heap s) t = true ∨ ∃ id, port_id s t = Some id.

(** ** Notions for further properties of the module *)

(** The port [createMessagePort(id)] makes. *)
Definition new_port (id : rid) : MessagePort :=
  mkMessagePort (Some id) false false false None false [].

Definition is_close_op (id : rid) (e : effect) : bool :=
  match e with EffClose id' => Z.eqb id' id | _ => false end.

(** How many times [core.close(id)] was called. *)
Definition close_op_calls (id : rid) (t : list effect) : nat :=
  length (List.filter (is_close_op id) t).

Definition is_ActClose (a : close_action) : bool :=
  match a with ActClose => true | ActPeerClosed => false end.


(** What the receive loop adds to the trace for one delivered primitive: a
    call of every listener registered for [type], then the next receive. *)
Definition listener_effects (this : loc) (ls : list (string * listener))
    (event : MessageEvent) : list effect :=
  (fun kl => EffListener kl.2 this event)
    <$> filter (fun kl => kl.1 = ev_type event) ls.


(** ** timers.ts *)

(** The timer registry: a module-level map from timer ids to timers and the
    counter the ids come from.  What the module sends to and hears from the
    privileged side goes through [pubInternal] and [sub] of ./dispatch, which
    are recorded in a log; so are the calls of callbacks, which return or
    throw and do not call back into the module. *)
Module Timers.

(** [pb.Msg.Command], as far as this module tells its values apart. *)
Inductive Command :=
| TIMER_READY
| TIMER_START
| TIMER_CLEAR
| COMMAND_OTHER (n : nat).

(** The fields of a decoded [pb.Msg] that [onMessage] reads. *)
Record Msg := mkMsg {
  command : Command;
  timerReadyId : Z;
  timerReadyDone : bool
}.

(** The messages the module publishes. *)
Inductive published :=
| TimerStartMsg (timerStartId : Z) (timerStartInterval : bool) (timerStartDelay : Z)
| TimerClearMsg (timerClearId : Z).

Record Timer := mkTimer {
  id : Z;
  cb : callback;
  interval : bool;
  args : list value;
  delay : Z
}.

Inductive event :=
| Sub (channel : string)
| PubInternal (channel : string) (msg : published)
| CallTimer (cb : callback) (args : list value).

Record store := mkStore {
  nextTimerId : Z;
  timers : gmap Z Timer;
  log : list event
}.

(** The module as loaded: [let nextTimerId = 1; const timers = new Map()]. *)
Definition initial : store := mkStore 1 ∅ [].

Definition record (e : event) (st : store) : store :=
  mkStore (nextTimerId st) (timers st) (log st ++ [e]).

Definition initTimers (st : store) : store := record (Sub "timers") st.

(** How a call of [onMessage] ends: it returns, its [assert] throws, or the
    timer's callback throws. *)
Inductive outcome :=
| Returned
| AssertFailed
| CallbackThrew (e : exn).

Definition onMessage (msg : Msg) (st : store) : store * outcome :=
  match command msg with
  | TIMER_READY =>
    match timers st !! timerReadyId msg with
    | None => (st, Returned)
    | Some timer =>
      let st1 := record (CallTimer (cb timer) (args timer)) st in
      match cb_throws (cb timer) with
      | Some e => (st1, CallbackThrew e)
      | None =>
        if timerReadyDone msg
        then (mkStore (nextTimerId st1) (delete (timerReadyId msg) (timers st1)) (log st1),
              Returned)
        else (st1, Returned)
      end
    end
  | _ => (st, AssertFailed)
  end.

Definition setTimer (cb : callback) (delay : Z) (interval : bool) (args : list value)
    (st : store) : store * Z :=
  let timer := mkTimer (nextTimerId st) cb interval args delay in
  (record (PubInternal "timers" (TimerStartMsg (id timer) (Timers.interval timer)
                                   (Timers.delay timer)))
     (mkStore (nextTimerId st + 1) (<[id timer := timer]> (timers st)) (log st)),
   id timer).

Definition setTimeout (cb : callback) (delay : Z) (args : list value) (st : store)
    : store * Z :=
  setTimer cb delay false args st.


Definition clearTimer (id : Z) (st : store) : store :=
  record (PubInternal "timers" (TimerClearMsg id))
    (mkStore (nextTimerId st) (delete id (timers st)) (log st)).

(** Every registered timer has an id the counter has already passed. *)
Definition ids_below (st : store) : Prop :=
  ∀ k, is_Some (timers st !! k) → (k < nextTimerId st)%Z.

(** The message that tells the module timer [k] is ready. *)
Definition ready (k : Z) (done : bool) : Msg := mkMsg TIMER_READY k done.

End Timers.

(** * Properties *)

(** Closed decidable facts (membership, absence of duplicates) by
    evaluation. *)
Ltac by_decide := apply (bool_decide_unpack _); exact I.

(** Case analysis on the object a location holds. *)
Ltac case_lookup h l :=
  destruct (h !! l) as [[?fields|?ab|?port|?c]|].

(** ** Ports in the heap *)

Lemma get_port_Some (h : heap_t) (l : loc) (p : MessagePort) :
  get_port h l = Some p ↔ h !! l = Some (OMessagePort p).
Proof.
  unfold get_port. destruct (h !! l) as [[]|]; split; congruence.
Qed.

Lemma isMessagePort_get_port (h : heap_t) (l : loc) :
  isMessagePort h l = true ↔ ∃ p, get_port h l = Some p.
Proof.
  unfold isMessagePort, get_port.
  destruct (h !! l) as [[]|]; split; try congruence; try (intros [? ?]; congruence); eauto.
Qed.

Lemma port_id_is_port (s : state) (l : loc) (id : rid) :
  port_id s l = Some id → isMessagePort (heap s) l = true.
Proof.
  unfold port_id. intros H. apply isMessagePort_get_port.
  destruct (get_port (heap s) l); [eauto | discriminate].
Qed.

Lemma trace_update_port (l : loc) f (s : state) : trace (update_port l f s) = trace s.
Proof. unfold update_port. by destruct (get_port (heap s) l). Qed.

Lemma count_update_port (l : loc) f (s : state) :
  messageEventListenerCount (update_port l f s) = messageEventListenerCount s.
Proof. unfold update_port. by destruct (get_port (heap s) l). Qed.

Lemma get_port_update_eq (l : loc) f (s : state) (p : MessagePort) :
  get_port (heap s) l = Some p → get_port (heap (update_port l f s)) l = Some (f p).
Proof.
  intros H. unfold update_port. rewrite H. unfold set_heap; simpl.
  apply get_port_Some. apply get_port_Some in H.
  apply list_lookup_insert_eq. by eapply lookup_lt_Some.
Qed.

Lemma lookup_update_ne (l l' : loc) f (s : state) :
  l ≠ l' → heap (update_port l f s) !! l' = heap s !! l'.
Proof.
  intros H. unfold update_port. destruct (get_port (heap s) l); [|done].
  unfold set_heap; simpl. by apply list_lookup_insert_ne.
Qed.

Lemma get_port_update_ne (l l' : loc) f (s : state) :
  l ≠ l' → get_port (heap (update_port l f s)) l' = get_port (heap s) l'.
Proof. intros H. unfold get_port. by rewrite lookup_update_ne. Qed.

Lemma lookup_update_port (l l' : loc) f (s : state) :
  heap (update_port l f s) !! l'
  = match heap s !! l' with
    | Some (OMessagePort p) => Some (OMessagePort (if decide (l = l') then f p else p))
    | o => o
    end.
Proof.
  destruct (decide (l = l')) as [<-|Hne].
  - unfold update_port, get_port.
    destruct (heap s !! l) as [[fields|b|p|c]|] eqn:E; rewrite ?E; try done.
    unfold set_heap; simpl. apply list_lookup_insert_eq. by eapply lookup_lt_Some.
  - rewrite lookup_update_ne by done. by destruct (heap s !! l') as [[]|].
Qed.

Lemma isMessagePort_update_port (l l' : loc) f (s : state) :
  isMessagePort (heap (update_port l f s)) l' = isMessagePort (heap s) l'.
Proof.
  unfold isMessagePort. rewrite lookup_update_port.
  by case_lookup (heap s) l'.
Qed.

Lemma isArrayBuffer_update_port (l l' : loc) f (s : state) :
  isArrayBuffer (heap (update_port l f s)) l' = isArrayBuffer (heap s) l'.
Proof.
  unfold isArrayBuffer. rewrite lookup_update_port.
  by case_lookup (heap s) l'.
Qed.

Lemma get_port_update_port (l l' : loc) f (s : state) :
  get_port (heap (update_port l f s)) l'
  = (fun p => if decide (l = l') then f p else p) <$> get_port (heap s) l'.
Proof.
  unfold get_port. rewrite lookup_update_port.
  by destruct (heap s !! l') as [[]|].
Qed.

Lemma port_id_consume (t l : loc) (s : state) :
  port_id (update_port t (set_id None) s) l
  = if decide (t = l) then None else port_id s l.
Proof.
  unfold port_id. rewrite get_port_update_port.
  destruct (get_port (heap s) l) as [p|]; simpl; by destruct (decide (t = l)).
Qed.

Lemma port_id_update_same_id (l l' : loc) f (s : state) :
  (∀ port, _id (f port) = _id port) →
  port_id (update_port l f s) l' = port_id s l'.
Proof.
  intros Hf. unfold port_id. rewrite get_port_update_port.
  destruct (get_port (heap s) l') as [port|]; [|done]. simpl.
  by destruct (decide (l = l')).
Qed.

Create Rewrite HintDb port_frame.
#[local] Hint Rewrite trace_update_port count_update_port
  isMessagePort_update_port isArrayBuffer_update_port : port_frame.

Lemma sequence_object_refs (ls : list loc) (s : state) :
  sequence_object (VRef <$> ls) s = (s, Ok ls).
Proof.
  induction ls as [|l ls IH]; [done|].
  rewrite fmap_cons. cbn [sequence_object]. unfold bind. by rewrite IH.
Qed.

(** ** Self-transfer *)

(** C3: [p.postMessage(x, [p])] throws a DataCloneError whatever [x] is, and
    leaves the whole state, the transport id of [p] included, as it was; the
    same holds when the list is given as the [transfer] option. *)
Theorem C3_self_transfer_throws (s : state) (p : loc) (x : value) :
  isMessagePort (heap s) p = true →
  postMessage p x (ArgSequence [VRef p]) s
    = (s, Throw (DOMException "Can not transfer self" "DataCloneError"))
  ∧ postMessage p x (ArgDictionary (Some [VRef p])) s
    = (s, Throw (DOMException "Can not transfer self" "DataCloneError"))
  ∧ port_id (postMessage p x (ArgSequence [VRef p]) s).1 p = port_id s p.
Proof.
  intros Hp.
  assert (postMessage p x (ArgSequence [VRef p]) s
          = (s, Throw (DOMException "Can not transfer self" "DataCloneError"))) as E.
  { unfold postMessage, bind, assertBranded. rewrite Hp. simpl.
    unfold bind, ret. simpl. rewrite bool_decide_eq_true_2; [done|]. by left. }
  split; [exact E|]. split; [|by rewrite E].
  unfold postMessage, bind, assertBranded. rewrite Hp. simpl.
  unfold bind, ret. simpl. rewrite bool_decide_eq_true_2; [done|]. by left.
Qed.

Lemma C3_self_transfer_throws_witness :
  let s := mkState [OMessagePort (mkMessagePort (Some 4%Z) false false false None false [])] 0 [] in
  isMessagePort (heap s) 0 = true ∧
  port_id (postMessage 0 (VPrim PNull) (ArgSequence [VRef 0]) s).1 0 = Some 4%Z.
Proof.
  split; [reflexivity|].
  destruct (C3_self_transfer_throws
              (mkState [OMessagePort (mkMessagePort (Some 4%Z) false false false None false [])] 0 [])
              0 (VPrim PNull)) as (_ & _ & H); [reflexivity|].
  rewrite H. reflexivity.
Defined.

(** ** The shared listener counter *)

Lemma port_refed_set_refed (l : loc) (b : bool) (s : state) :
  isMessagePort (heap s) l = true → port_refed (update_port l (set_refed b) s) l = b.
Proof.
  intros [p Hp]%isMessagePort_get_port. unfold port_refed.
  by rewrite (get_port_update_eq _ _ _ _ Hp).
Qed.

Lemma port_refed_update_ne (l l' : loc) f (s : state) :
  l ≠ l' → port_refed (update_port l f s) l' = port_refed s l'.
Proof. intros H. unfold port_refed. by rewrite get_port_update_ne. Qed.

Lemma refMessagePort_ref (s : state) (p : loc) :
  port_refed s p = false →
  refMessagePort p true s
  = (set_count (messageEventListenerCount s + 1) (update_port p (set_refed true) s), Ok tt).
Proof. intros H. unfold refMessagePort. by rewrite H. Qed.

Lemma refMessagePort_unref (s : state) (p : loc) :
  port_refed s p = true →
  refMessagePort p false s = (set_count 0 (update_port p (set_refed false) s), Ok tt).
Proof. intros H. unfold refMessagePort. by rewrite H. Qed.

(** C9: there is one counter for all ports.  Ref'ing a port that is not
    ref'd adds one to it; unref'ing a ref'd port sets it to zero, whatever
    other ports contributed: after ref'ing two ports and unref'ing one of
    them the counter is zero although the other port is still ref'd. *)
Theorem C9_unref_resets_shared_counter (s : state) (p q : loc) :
  isMessagePort (heap s) p = true →
  isMessagePort (heap s) q = true →
  p ≠ q →
  (port_refed s p = false →
     messageEventListenerCount (refMessagePort p true s).1
       = (messageEventListenerCount s + 1)%Z
     ∧ port_refed (refMessagePort p true s).1 p = true)
  ∧ (port_refed s p = true →
     messageEventListenerCount (refMessagePort p false s).1 = 0%Z
     ∧ port_refed (refMessagePort p false s).1 p = false)
  ∧ (port_refed s p = false → port_refed s q = false →
     let s2 := (refMessagePort q true (refMessagePort p true s).1).1 in
     let s3 := (refMessagePort q false s2).1 in
     messageEventListenerCount s2 = (messageEventListenerCount s + 2)%Z
     ∧ messageEventListenerCount s3 = 0%Z
     ∧ port_refed s3 p = true).
Proof.
  intros Hp Hq Hne. split; [|split].
  - intros H. rewrite refMessagePort_ref by done. simpl.
    split; [done|]. by apply port_refed_set_refed.
  - intros H. rewrite refMessagePort_unref by done. simpl.
    split; [done|]. by apply port_refed_set_refed.
  - intros H1 H2. rewrite (refMessagePort_ref s p) by done. cbn [fst].
    set (s1 := set_count _ _).
    assert (port_refed s1 q = false) as Hq1.
    { unfold s1, port_refed, set_count. simpl.
      fold (port_refed (update_port p (set_refed true) s) q).
      by rewrite port_refed_update_ne. }
    assert (isMessagePort (heap s1) q = true) as Hq2.
    { unfold s1, set_count. simpl. by rewrite isMessagePort_update_port. }
    rewrite (refMessagePort_ref s1 q) by done. cbn [fst].
    set (s2 := set_count _ _).
    assert (port_refed s2 q = true) as Hq3.
    { unfold s2, port_refed, set_count. simpl.
      fold (port_refed (update_port q (set_refed true) s1) q).
      by apply port_refed_set_refed. }
    rewrite (refMessagePort_unref s2 q) by done. cbn [fst].
    split; [|split].
    + unfold s2, s1, set_count. simpl. rewrite ?count_update_port. lia.
    + done.
    + unfold port_refed, set_count. simpl.
      fold (port_refed (update_port q (set_refed false) s2) p).
      rewrite port_refed_update_ne by done.
      unfold s2, port_refed, set_count. simpl.
      fold (port_refed (update_port q (set_refed true) s1) p).
      rewrite port_refed_update_ne by done.
      unfold s1, port_refed, set_count. simpl.
      fold (port_refed (update_port p (set_refed true) s) p).
      by apply port_refed_set_refed.
Qed.

Lemma C9_unref_resets_shared_counter_witness :
  let port := OMessagePort (mkMessagePort (Some 1%Z) false false false None false []) in
  let s := mkState [port; port] 5 [] in
  messageEventListenerCount (refMessagePort 0 true s).1 = 6%Z
  ∧ messageEventListenerCount
      (refMessagePort 1 false (refMessagePort 1 true (refMessagePort 0 true s).1).1).1 = 0%Z.
Proof.
  pose proof (C9_unref_resets_shared_counter
    (mkState [OMessagePort (mkMessagePort (Some 1%Z) false false false None false []);
              OMessagePort (mkMessagePort (Some 1%Z) false false false None false [])] 5 [])
    0 1 eq_refl eq_refl ltac:(lia)) as (H1 & _ & H3).
  split.
  - exact (proj1 (H1 eq_refl)).
  - exact (proj1 (proj2 (H3 eq_refl eq_refl))).
Defined.

(** ** The close callback *)



(** The call comes first and the flag second: a call that throws leaves the
    flag as it was. *)
Lemma maybe_invoke_spec (p : loc) (s : state) :
  nodeWorkerThreadMaybeInvokeCloseCb p s
  = match get_port (heap s) p with
    | Some port =>
      match nodeWorkerThreadCloseCb port with
      | Some cb =>
        if nodeWorkerThreadCloseCbInvoked port then (s, Ok tt)
        else
          match cb_throws cb with
          | None =>
            (update_port p (set_closeCbInvoked true) (emit (EffCloseCb cb) s), Ok tt)
          | Some e => (emit (EffCloseCb cb) s, Throw e)
          end
      | None => (s, Ok tt)
      end
    | None => (s, Ok tt)
    end.
Proof.
  unfold nodeWorkerThreadMaybeInvokeCloseCb, bind, call_close_cb, modify.
  destruct (get_port (heap s) p) as [port|]; [|done].
  destruct (nodeWorkerThreadCloseCb port) as [cb|]; [|done].
  destruct (nodeWorkerThreadCloseCbInvoked port); [done|]. cbn [negb].
  by destruct (cb_throws cb).
Qed.

Lemma maybe_invoke_throws_spec (p : loc) (s : state) :
  (nodeWorkerThreadMaybeInvokeCloseCb p s).2
  = from_option Throw (Ok tt) (close_cb_throws s p).
Proof.
  rewrite maybe_invoke_spec. unfold close_cb_throws.
  destruct (get_port (heap s) p) as [port|]; [|done].
  destruct (nodeWorkerThreadCloseCb port) as [cb|];
    destruct (nodeWorkerThreadCloseCbInvoked port); try done.
  cbn. by destruct (cb_throws cb).
Qed.

(** The call touches nothing of the heap but the flag of [p]. *)
Lemma maybe_invoke_get_port (p q : loc) (s : state) :
  ∃ b, get_port (heap (nodeWorkerThreadMaybeInvokeCloseCb p s).1) q
       = (fun port => if decide (p = q) then set_closeCbInvoked b port else port)
           <$> get_port (heap s) q.
Proof.
  rewrite maybe_invoke_spec.
  assert (get_port (heap s) q
          = (fun port => if decide (p = q)
                         then set_closeCbInvoked (nodeWorkerThreadCloseCbInvoked port) port
                         else port) <$> get_port (heap s) q) as Hsame.
  { destruct (get_port (heap s) q) as [[]|]; [|done]. cbn. by destruct (decide (p = q)). }
  destruct (get_port (heap s) p) as [port|] eqn:Hp.
  - destruct (nodeWorkerThreadCloseCb port) as [cb|].
    + destruct (nodeWorkerThreadCloseCbInvoked port) eqn:Hi.
      * exists true. cbn [fst]. destruct (decide (p = q)) as [<-|Hne].
        -- rewrite Hp. cbn. f_equal. destruct port. cbn in *. by subst.
        -- by destruct (get_port (heap s) q).
      * destruct (cb_throws cb); cbn [fst].
        -- exists false. destruct (decide (p = q)) as [<-|Hne].
           ++ cbn [emit heap]. rewrite Hp. cbn. f_equal. destruct port. cbn in *. by subst.
           ++ cbn [emit heap]. by destruct (get_port (heap s) q).
        -- exists true. by rewrite get_port_update_port.
    + exists (nodeWorkerThreadCloseCbInvoked port). cbn [fst].
      destruct (decide (p = q)) as [<-|Hne].
      * rewrite Hp. cbn. f_equal. by destruct port.
      * by destruct (get_port (heap s) q).
  - exists false. cbn [fst]. destruct (decide (p = q)) as [<-|Hne].
    + by rewrite Hp.
    + by destruct (get_port (heap s) q).
Qed.

Lemma maybe_invoke_port_id (p q : loc) (s : state) :
  port_id (nodeWorkerThreadMaybeInvokeCloseCb p s).1 q = port_id s q.
Proof.
  unfold port_id. destruct (maybe_invoke_get_port p q s) as [b ->].
  destruct (get_port (heap s) q) as [port|]; [|done]. cbn.
  by destruct (decide (p = q)).
Qed.

Lemma maybe_invoke_enabled (p q : loc) (s : state) :
  port_enabled (nodeWorkerThreadMaybeInvokeCloseCb p s).1 q = port_enabled s q.
Proof.
  unfold port_enabled. destruct (maybe_invoke_get_port p q s) as [b ->].
  destruct (get_port (heap s) q) as [port|]; [|done]. cbn.
  by destruct (decide (p = q)).
Qed.

Lemma isMessagePort_as_get_port (h : list obj) (l : loc) :
  isMessagePort h l = bool_decide (is_Some (get_port h l)).
Proof.
  unfold isMessagePort, get_port. destruct (h !! l) as [[]|]; cbn; try done.
Qed.

Lemma maybe_invoke_isMessagePort (p q : loc) (s : state) :
  isMessagePort (heap (nodeWorkerThreadMaybeInvokeCloseCb p s).1) q
  = isMessagePort (heap s) q.
Proof.
  rewrite !isMessagePort_as_get_port.
  destruct (maybe_invoke_get_port p q s) as [b ->].
  by destruct (get_port (heap s) q).
Qed.






Lemma close_open (s : state) (p : loc) (id : rid) :
  port_id s p = Some id →
  close p s
  = nodeWorkerThreadMaybeInvokeCloseCb p (update_port p (set_id None) (emit (EffClose id) s)).
Proof.
  intros H. unfold close, bind, assertBranded.
  rewrite (port_id_is_port _ _ _ H). by rewrite H.
Qed.

Lemma close_closed (s : state) (p : loc) :
  isMessagePort (heap s) p = true → port_id s p = None → close p s = (s, Ok tt).
Proof.
  intros Hp H. unfold close, bind, assertBranded. by rewrite Hp, H.
Qed.








(** ** Deserialization only allocates *)

Lemma heap_fold_emit {A} (f : A → effect) (xs : list A) (s : state) :
  heap (fold_left (fun s' x => emit (f x) s') xs s) = heap s.
Proof. revert s. induction xs as [|x xs IH]; intros s; [done|]. simpl. by rewrite IH. Qed.

Lemma dispatchEvent_heap (this : loc) (ev : MessageEvent) (s : state) :
  heap (dispatchEvent this ev s).1 = heap s.
Proof.
  unfold dispatchEvent. destruct (get_port (heap s) this); [|done].
  cbn [fst]. apply (heap_fold_emit (fun kl => EffListener kl.2 this ev)).
Qed.

Lemma get_port_prefix (h h' : list obj) (l : loc) (port : MessagePort) :
  h `prefix_of` h' → get_port h l = Some port → get_port h' l = Some port.
Proof.
  intros Hpre H. apply get_port_Some. apply get_port_Some in H.
  by eapply prefix_lookup_Some.
Qed.

Lemma deserialize_transferables_loop_frame (descriptors : list Transferable)
    (acc : deserialize_acc) (s : state) :
  heap s `prefix_of` heap (deserialize_transferables_loop descriptors acc s).1
  ∧ trace (deserialize_transferables_loop descriptors acc s).1 = trace s.
Proof.
  revert acc s. induction descriptors as [|d descriptors IH]; intros acc s; [done|].
  destruct d as [data|data|kind]; cbn [deserialize_transferables_loop].
  - unfold bind, createMessagePort.
    match goal with |- context [deserialize_transferables_loop descriptors ?a ?s1] =>
      destruct (IH a s1) as [H1 H2] end.
    split; [|by rewrite H2].
    etrans; [|exact H1]. unfold set_heap; simpl. by apply prefix_app_r.
  - apply IH.
  - done.
Qed.

Lemma call_core_deserialize_frame (payload : serialized)
    (options : option DeserializeOptions) (s : state) :
  heap s `prefix_of` heap (call_core_deserialize payload options s).1
  ∧ trace (call_core_deserialize payload options s).1 = trace s.
Proof.
  unfold call_core_deserialize.
  destruct (core_deserialize (heap s) payload options) as [[[h v] bufs]|] eqn:E; [|done].
  split; [|done]. cbn [fst]. unfold set_heap; simpl.
  unfold core_deserialize in E.
  destruct (mapM materialize _) as [bufs'|]; [|done]. simpl in E.
  destruct (mapM _ (snodes payload)) as [objs|]; [|done]. simpl in E.
  destruct (decode_value _ _ _ _ _); [|done]. simpl in E.
  injection E as <- _ _. by apply prefix_app_r.
Qed.

Lemma deserializeJsMessageData_frame (messageData : MessageData) (s : state) :
  heap s `prefix_of` heap (deserializeJsMessageData messageData s).1
  ∧ trace (deserializeJsMessageData messageData s).1 = trace s.
Proof.
  unfold deserializeJsMessageData, bind.
  set (first := match md_transferables messageData with
                | [] => ret _
                | _ => _ end).
  assert (heap s `prefix_of` heap (first s).1 ∧ trace (first s).1 = trace s) as [H1 H2].
  { unfold first. destruct (md_transferables messageData); [done|].
    apply deserialize_transferables_loop_frame. }
  destruct (first s) as [s1 [acc|e]]; [|done]. cbn [fst] in H1, H2.
  match goal with |- context [call_core_deserialize ?p ?o s1] =>
    destruct (call_core_deserialize_frame p o s1) as [H3 H4];
    destruct (call_core_deserialize p o s1) as [s2 [r|e]] end;
  cbn [fst] in *; unfold ret; cbn [fst]; (split; [by etrans | congruence]).
Qed.

(** ** The receive loop *)

Lemma loop_break_disables (this : loc) (s : state) :
  isMessagePort (heap s) this = true →
  loop_break this s = (update_port this (set_enabled false) s, TaskFulfilled)
  ∧ port_enabled (loop_break this s).1 this = false.
Proof.
  intros [p Hp]%isMessagePort_get_port. split; [done|].
  unfold loop_break, port_enabled. cbn [fst].
  by rewrite (get_port_update_eq _ _ _ _ Hp).
Qed.

(** C4 (fails on the code): the statement after the loop, which clears
    [_enabled], is reached through [break] only.  When the transport fails
    with anything but an interruption the task rejects (with the transport's
    error, or with what the close callback throws when it is called and
    throws), and when an envelope fails to deserialize the async function
    returns after dispatching "messageerror": either way the loop is over and
    [_enabled] is still true.  So it is when a clean close calls a close
    callback that throws; otherwise a clean close clears the flag. *)
Theorem C4_enabled_stays_set_on_throw_and_return (s : state) (p : loc) :
  port_enabled s p = true →
  (∀ err, isInterrupted err = false →
     (resume p (RecvThrow err) s).2 = TaskRejected (default err (close_cb_throws s p))
     ∧ port_enabled (resume p (RecvThrow err) s).1 p = true)
  ∧ (∀ data, (∃ e, (deserializeJsMessageData data s).2 = Throw e) →
     (resume p (RecvData data) s).2 = TaskFulfilled
     ∧ port_enabled (resume p (RecvData data) s).1 p = true)
  ∧ match close_cb_throws s p with
    | None => port_enabled (resume p RecvNull s).1 p = false
    | Some e =>
      (resume p RecvNull s).2 = TaskRejected e
      ∧ port_enabled (resume p RecvNull s).1 p = true
    end
  ∧ port_enabled (resume p (RecvThrow Interrupted) s).1 p
    = match get_port (heap s) p with
      | Some port => MessagePortReceiveMessageOnPortSymbol port && bool_decide (is_Some (_id port))
      | None => false
      end.
Proof.
  intros Hen.
  assert (∃ port, get_port (heap s) p = Some port ∧ _enabled port = true) as (port & Hp & Hpe).
  { unfold port_enabled in Hen. destruct (get_port (heap s) p) as [port|]; [eauto|done]. }
  pose proof (maybe_invoke_throws_spec p s) as Hres.
  pose proof (maybe_invoke_enabled p p s) as Hkeep.
  pose proof (maybe_invoke_isMessagePort p p s) as Hport.
  split; [|split; [|split]].
  - intros err Herr. unfold resume. rewrite Herr.
    destruct (nodeWorkerThreadMaybeInvokeCloseCb p s) as [s1 [[]|e]];
      cbn [fst snd] in *; destruct (close_cb_throws s p); cbn in Hres |- *;
      try done; split; congruence.
  - intros data [e He]. unfold resume.
    destruct (deserializeJsMessageData_frame data s) as [Hpre _].
    destruct (deserializeJsMessageData data s) as [s1 [[m t]|e']]; [done|].
    cbn [fst snd] in *. split; [done|].
    unfold port_enabled. rewrite dispatchEvent_heap.
    by rewrite (get_port_prefix _ _ _ _ Hpre Hp).
  - unfold resume.
    destruct (nodeWorkerThreadMaybeInvokeCloseCb p s) as [s1 [[]|e]];
      cbn [fst snd] in *; destruct (close_cb_throws s p); cbn in Hres |- *; try done.
    + apply loop_break_disables. rewrite Hport. apply isMessagePort_get_port; eauto.
    + split; congruence.
  - unfold resume. cbn [isInterrupted]. rewrite Hp.
    destruct (MessagePortReceiveMessageOnPortSymbol port) eqn:Hflag; cbn [andb].
    + unfold loop_head, port_id.
      rewrite (get_port_update_eq p (set_receiveMessageOnPort false) s port Hp).
      cbn [_id set_receiveMessageOnPort].
      destruct (_id port) as [id|] eqn:Hid.
      * cbn [fst]. unfold port_enabled, emit. cbn [heap].
        rewrite (get_port_update_eq p (set_receiveMessageOnPort false) s port Hp).
        by rewrite bool_decide_eq_true_2.
      * rewrite bool_decide_eq_false_2 by (by intros [? ?]).
        apply loop_break_disables. rewrite isMessagePort_update_port.
        apply isMessagePort_get_port; eauto.
    + apply loop_break_disables. apply isMessagePort_get_port; eauto.
Qed.

Lemma C4_enabled_stays_set_on_throw_and_return_witness :
  let s := mkState [OMessagePort (mkMessagePort (Some 3%Z) true false false None false [])] 0
             [EffRecvMessage 3%Z] in
  port_enabled s 0 = true
  ∧ (resume 0 (RecvThrow (TransportError "connection reset")) s).2
    = TaskRejected (TransportError "connection reset")
  ∧ port_enabled (resume 0 (RecvThrow (TransportError "connection reset")) s).1 0 = true
  ∧ (resume 0 (RecvData (mkMessageData (mkSerialized (SHostObject 0) []) [])) s).2
    = TaskFulfilled
  ∧ port_enabled
      (resume 0 (RecvData (mkMessageData (mkSerialized (SHostObject 0) []) [])) s).1 0 = true.
Proof.
  set (s := mkState [OMessagePort (mkMessagePort (Some 3%Z) true false false None false [])] 0
              [EffRecvMessage 3%Z]).
  destruct (C4_enabled_stays_set_on_throw_and_return s 0 eq_refl) as (H1 & H2 & _).
  split; [reflexivity|].
  destruct (H1 (TransportError "connection reset") eq_refl) as [Ha Hb].
  destruct (H2 (mkMessageData (mkSerialized (SHostObject 0) []) [])) as [Hc Hd].
  { eexists. reflexivity. }
  done.
Defined.

(** ** Transferred objects by position *)

Lemma js_array_set_lookup_before (arr : list value) (i id : nat) (x y : value) :
  arr !! i = Some y → i < id → js_array_set arr id x !! i = Some y.
Proof.
  intros Hi Hlt. unfold js_array_set. destruct (id <? length arr).
  - rewrite list_lookup_insert_ne by lia. done.
  - by apply lookup_app_l_Some.
Qed.

Lemma deserialize_splice_loop_keeps (ids : list nat) (k : nat) (bufs : list loc)
    (transferables : list value) (i : nat) (y : value) :
  transferables !! i = Some y →
  Forall (fun id => i < id) ids →
  deserialize_splice_loop ids k bufs transferables !! i = Some y.
Proof.
  revert k transferables. induction ids as [|id ids IH]; intros k transferables Hi Hall; [done|].
  apply Forall_cons in Hall as [Hid Hall]. cbn [deserialize_splice_loop].
  apply IH; [|done]. by apply js_array_set_lookup_before.
Qed.

(** The first loop only appends: to the list of transferred objects, and to
    the recorded slots, every new one past the end of the list as it was. *)
Lemma deserialize_transferables_loop_grows (descriptors : list Transferable)
    (acc acc' : deserialize_acc) (s s1 : state) :
  deserialize_transferables_loop descriptors acc s = (s1, Ok acc') →
  acc_transferables acc `prefix_of` acc_transferables acc'
  ∧ ∃ new,
      acc_arrayBufferIdsInTransferables acc'
        = acc_arrayBufferIdsInTransferables acc ++ new
      ∧ Forall (fun id => length (acc_transferables acc) < id) new.
Proof.
  revert acc s. induction descriptors as [|d descriptors IH]; intros acc s.
  - intros [= <- <-]. split; [done|]. exists []. by rewrite app_nil_r.
  - destruct d as [data|data|kind]; cbn [deserialize_transferables_loop]; [| |done].
    + unfold bind, createMessagePort. intros [Hpre (new & Hids & Hnew)]%IH.
      cbn [acc_transferables acc_arrayBufferIdsInTransferables ArrayPrototypePush fst]
        in Hpre, Hids, Hnew.
      split; [by eapply prefix_app_l|]. exists new. split; [done|].
      eapply Forall_impl; [exact Hnew|]. intros id. rewrite length_app. simpl. lia.
    + intros [Hpre (new & Hids & Hnew)]%IH.
      cbn [acc_transferables acc_arrayBufferIdsInTransferables ArrayPrototypePush fst snd]
        in Hpre, Hids, Hnew.
      split; [by eapply prefix_app_l|].
      exists ((length (acc_transferables acc) + 1) :: new).
      split; [by rewrite Hids, <- app_assoc|].
      constructor; [lia|].
      eapply Forall_impl; [exact Hnew|]. intros id. rewrite length_app. simpl. lia.
Qed.

(** Port descriptors add one object each and record no slot. *)
Lemma deserialize_transferables_loop_ports (pre rest : list Transferable)
    (acc : deserialize_acc) (s : state) :
  Forall is_port_descriptor pre →
  ∃ acc1 s1,
    deserialize_transferables_loop (pre ++ rest) acc s
      = deserialize_transferables_loop rest acc1 s1
    ∧ acc_arrayBufferIdsInTransferables acc1 = acc_arrayBufferIdsInTransferables acc
    ∧ length (acc_transferables acc1) = length (acc_transferables acc) + length pre.
Proof.
  revert acc s. induction pre as [|d pre IH]; intros acc s Hall.
  - exists acc, s. simpl. split; [done|]. split; [done | lia].
  - apply Forall_cons in Hall as [Hd Hall]. destruct d as [data|data|kind]; [|done..].
    cbn [app deserialize_transferables_loop]. unfold bind, createMessagePort.
    match goal with |- context [deserialize_transferables_loop (pre ++ rest) ?a ?s0] =>
      destruct (IH a s0 Hall) as (acc1 & s1 & E & Hids & Hlen) end.
    exists acc1, s1. split; [done|]. split; [done|].
    cbn [acc_transferables ArrayPrototypePush fst] in Hlen.
    rewrite length_app in Hlen. simpl in *. lia.
Qed.

(** C8 (fails on the code): [ArrayPrototypePush] returns the new length, not
    the index of the pushed element, so the slot recorded for a buffer is one
    past the slot that was reserved for it.  Whenever deserialization
    returns, the slot of the first buffer descriptor still holds [null].
    For a single buffer descriptor the returned list has two entries, [null]
    at index 0 and the buffer at index 1; for a buffer descriptor followed by
    a port descriptor the buffer overwrites the port at index 1. *)
Theorem C8_buffer_lands_one_past_its_slot (s : state) (payload : serialized)
    (pre rest : list Transferable) (data : option backing_store)
    (store : backing_store) (id : rid) :
  Forall is_port_descriptor pre →
  (∀ s' v transferables,
     deserializeJsMessageData
       (mkMessageData payload (pre ++ TransferArrayBuffer data :: rest)) s
       = (s', Ok (v, transferables)) →
     transferables !! length pre = Some (VPrim PNull))
  ∧ deserializeJsMessageData
      (mkMessageData (mkSerialized (SPrim PNull) []) [TransferArrayBuffer (Some store)]) s
    = (set_heap (heap s ++ [OArrayBuffer (mkArrayBuffer store false)]) s,
       Ok (VPrim PNull, [VPrim PNull; VRef (length (heap s))]))
  ∧ (deserializeJsMessageData
       (mkMessageData (mkSerialized (SPrim PNull) [])
          [TransferArrayBuffer (Some store); TransferMessagePort id]) s).2
    = Ok (VPrim PNull, [VPrim PNull; VRef (S (length (heap s)))]).
Proof.
  intros Hpre. split; [|split].
  - intros s' v transferables. unfold deserializeJsMessageData, bind.
    cbn [md_transferables md_data].
    destruct (pre ++ TransferArrayBuffer data :: rest) as [|d ds] eqn:E;
      [by destruct pre|]. rewrite <- E. clear d ds E.
    destruct (deserialize_transferables_loop_ports pre (TransferArrayBuffer data :: rest)
                (mkDeserializeAcc [] [] [] []) s Hpre) as (acc1 & s1 & -> & Hids & Hlen).
    cbn [deserialize_transferables_loop acc_transferables
         acc_arrayBufferIdsInTransferables length] in *.
    destruct (deserialize_transferables_loop rest _ s1) as [s2 [acc'|e]] eqn:Eloop; [|done].
    apply deserialize_transferables_loop_grows in Eloop as [Hprefix (new & Hnew & Hall)].
    cbn [acc_transferables acc_arrayBufferIdsInTransferables ArrayPrototypePush fst snd]
      in Hprefix, Hnew, Hall.
    destruct (call_core_deserialize payload _ s2) as [s3 [r|e]]; [|done].
    unfold ret. intros [= _ _ <-].
    apply deserialize_splice_loop_keeps.
    + eapply prefix_lookup_Some; [|exact Hprefix].
      rewrite lookup_app_r by lia. by replace (length pre - _) with 0 by lia.
    + rewrite Hnew, Hids. apply Forall_app. split.
      * constructor; [lia | constructor].
      * eapply Forall_impl; [exact Hall|]. intros i. rewrite length_app. simpl. lia.
  - unfold deserializeJsMessageData, bind, call_core_deserialize, core_deserialize.
    simpl. unfold ret. reflexivity.
  - unfold deserializeJsMessageData, bind, call_core_deserialize, core_deserialize.
    simpl. unfold bind, ret, createMessagePort. simpl.
    rewrite length_app. simpl. rewrite Nat.add_1_r. reflexivity.
Qed.

Lemma C8_buffer_lands_one_past_its_slot_witness :
  let descriptors := [TransferMessagePort 5%Z; TransferArrayBuffer (Some [Byte.x2a]);
                      TransferArrayBuffer (Some [Byte.x2b])] in
  let r := deserializeJsMessageData
             (mkMessageData (mkSerialized (SPrim PNull) []) descriptors)
             (mkState [] 0 []) in
  Forall is_port_descriptor [TransferMessagePort 5%Z]
  ∧ r.2 = Ok (VPrim PNull, [VRef 0; VPrim PNull; VRef 1; VRef 2])
  ∧ [VRef 0; VPrim PNull; VRef 1; VRef 2] !! 1 = Some (VPrim PNull).
Proof.
  assert (Forall is_port_descriptor [TransferMessagePort 5%Z]) as Hpre
    by (by repeat constructor).
  split; [exact Hpre|]. split; [reflexivity|].
  apply (proj1 (C8_buffer_lands_one_past_its_slot (mkState [] 0 [])
                  (mkSerialized (SPrim PNull) []) [TransferMessagePort 5%Z]
                  [TransferArrayBuffer (Some [Byte.x2b])] (Some [Byte.x2a]) [] 0%Z Hpre)
           (deserializeJsMessageData
              (mkMessageData (mkSerialized (SPrim PNull) [])
                 [TransferMessagePort 5%Z; TransferArrayBuffer (Some [Byte.x2a]);
                  TransferArrayBuffer (Some [Byte.x2b])])
              (mkState [] 0 [])).1
           (VPrim PNull)).
  vm_compute. reflexivity.
Defined.

(** ** Serialization: the first loop and the codec *)

Lemma serialize_partition_loop_detached (h : list obj) (ts : list loc) (j : nat)
    (hostObjs bufs : list loc) (b : loc) :
  b ∈ ts →
  isArrayBuffer h b = true →
  ArrayBufferPrototypeGetByteLength h b = 0 →
  isDetachedBuffer h b = true →
  ∃ message,
    serialize_partition_loop h ts j hostObjs bufs
    = inl (DOMException message "DataCloneError").
Proof.
  intros Hin Hab Hlen Hdet. revert j hostObjs bufs.
  induction ts as [|t ts IH]; intros j hostObjs bufs; [by apply elem_of_nil in Hin|].
  cbn [serialize_partition_loop].
  apply elem_of_cons in Hin as [<-|Hin].
  - rewrite Hab, Hlen, Hdet. simpl. eauto.
  - destruct (isArrayBuffer h t).
    + destruct (_ && _); [eauto | by apply IH].
    + destruct (isMessagePort h t); by apply IH.
Qed.

(** The guard of the first loop looks at one entry at a time: a list with no
    detached buffer gets through it, whatever it repeats. *)
Lemma serialize_partition_loop_passes (h : list obj) (ts : list loc) (j : nat)
    (hostObjs bufs : list loc) :
  (∀ t, t ∈ ts → isDetachedBuffer h t = false) →
  ∃ hostObjs',
    serialize_partition_loop h ts j hostObjs bufs
    = inr (hostObjs', bufs ++ filter (fun t => isArrayBuffer h t = true) ts).
Proof.
  revert j hostObjs bufs. induction ts as [|t ts IH]; intros j hostObjs bufs Hat.
  - exists hostObjs. by rewrite app_nil_r.
  - cbn [serialize_partition_loop].
    assert (∀ t', t' ∈ ts → isDetachedBuffer h t' = false) as Hat'
      by (intros t' Ht'; apply Hat; by right).
    destruct (isArrayBuffer h t) eqn:E.
    + rewrite (Hat t) by by left. rewrite andb_false_r.
      destruct (IH (S j) hostObjs (ArrayPrototypePush bufs t).1 Hat') as [ho Hho].
      exists ho. rewrite Hho, filter_cons_True by done. simpl. by rewrite <- app_assoc.
    + rewrite filter_cons_False by (by rewrite E).
      destruct (isMessagePort h t); by apply IH.
Qed.

(** What the op throws over a list of buffers is its OperationError. *)
Lemma transfer_buffers_error (h h' : list obj) (index : nat) (bufs : list loc) (e : exn) :
  (∀ b, b ∈ bufs → isArrayBuffer h b = true) →
  transfer_buffers h index bufs = (h', inl e) →
  ∃ message, e = DOMException message "OperationError".
Proof.
  revert h index. induction bufs as [|x bufs IH]; intros h index Hall; [done|].
  cbn [transfer_buffers].
  assert (isArrayBuffer h x = true) as Hx by (apply Hall; by left).
  unfold isArrayBuffer in Hx.
  destruct (h !! x) as [[fields|abx|port|c]|] eqn:Ex; try done.
  destruct (ab_detached abx); [intros [= _ <-]; eauto|].
  specialize (IH (<[x := OArrayBuffer (mkArrayBuffer [] true)]> h) (S index)).
  destruct (transfer_buffers _ (S index) bufs) as [h1 [err|stores]] eqn:Et; [|done].
  intros [= <- <-]. apply IH; [|done].
  intros b Hb. unfold isArrayBuffer.
  destruct (decide (x = b)) as [->|Hne].
  - rewrite list_lookup_insert_eq by (by eapply lookup_lt_Some). done.
  - rewrite list_lookup_insert_ne by done. apply (Hall b). by right.
Qed.

Lemma transfer_buffers_detached (h : list obj) (index : nat) (bufs : list loc) (b : loc)
    (ab : ArrayBuffer) :
  b ∈ bufs →
  h !! b = Some (OArrayBuffer ab) →
  ab_detached ab = true →
  ∃ h' err, transfer_buffers h index bufs = (h', inl err).
Proof.
  intros Hin. revert h index.
  induction bufs as [|x bufs IH]; intros h index Hb Hdet; [by apply elem_of_nil in Hin|].
  cbn [transfer_buffers].
  destruct (h !! x) as [[fields|abx|port|c]|] eqn:Ex; eauto.
  destruct (ab_detached abx) eqn:Edx; eauto.
  apply elem_of_cons in Hin as [->|Hin]; [congruence|].
  destruct (IH Hin (<[x := OArrayBuffer (mkArrayBuffer [] true)]> h) (S index))
    as (h' & err & E); [|done|].
  - rewrite list_lookup_insert_ne; [done|]. intros ->. congruence.
  - rewrite E. eauto.
Qed.

Lemma transfer_buffers_twice (h : list obj) (index : nat) (l1 l2 l3 : list loc) (b : loc) :
  ∃ h' err, transfer_buffers h index (l1 ++ b :: l2 ++ b :: l3) = (h', inl err).
Proof.
  revert h index. induction l1 as [|x l1 IH]; intros h index.
  - cbn [app transfer_buffers].
    destruct (h !! b) as [[fields|ab|port|c]|] eqn:Eb; eauto.
    destruct (ab_detached ab) eqn:Ed; eauto.
    destruct (transfer_buffers_detached (<[b := OArrayBuffer (mkArrayBuffer [] true)]> h)
                (S index) (l2 ++ b :: l3) b (mkArrayBuffer [] true)) as (h' & err & E).
    + apply elem_of_app. right. by left.
    + apply list_lookup_insert_eq. by eapply lookup_lt_Some.
    + done.
    + rewrite E. eauto.
  - cbn [app transfer_buffers]. fold (l1 ++ b :: l2 ++ b :: l3).
    destruct (h !! x) as [[fields|ab|port|c]|] eqn:Ex; eauto.
    destruct (ab_detached ab) eqn:Ed; eauto.
    destruct (IH (<[x := OArrayBuffer (mkArrayBuffer [] true)]> h) (S index))
      as (h' & err & E).
    rewrite E. eauto.
Qed.

Lemma call_core_serialize_trace (data : value) (options : option SerializeOptions)
    (s : state) :
  trace (call_core_serialize data options s).1 = trace s.
Proof.
  unfold call_core_serialize.
  by destruct (core_serialize (heap s) data options) as [h [[err|e]|r]].
Qed.

Lemma serialize_payload_trace (data : value) (ts : list loc) (s : state) :
  trace (serialize_payload data ts s).1 = trace s.
Proof.
  unfold serialize_payload, bind, serialize_options.
  destruct ts as [|t ts]; [apply call_core_serialize_trace|].
  destruct (serialize_partition_loop _ _ _ _ _) as [e|[hostObjs bufs]]; [done|].
  apply call_core_serialize_trace.
Qed.

(** A detached buffer is turned away by the first loop, before the codec is
    called: nothing has changed when the exception leaves. *)
Lemma serialize_payload_detached (data : value) (ts : list loc) (b : loc) (s : state) :
  isArrayBuffer (heap s) b = true →
  b ∈ ts →
  ArrayBufferPrototypeGetByteLength (heap s) b = 0 →
  isDetachedBuffer (heap s) b = true →
  ∃ message,
    serialize_payload data ts s = (s, Throw (DOMException message "DataCloneError")).
Proof.
  intros Hab Hin Hlen Hdet.
  unfold serialize_payload, bind, serialize_options.
  destruct ts as [|t ts]; [by apply elem_of_nil in Hin|].
  destruct (serialize_partition_loop_detached (heap s) (t :: ts) 0 [] [] b Hin Hab Hlen Hdet)
    as [message ->].
  eauto.
Qed.

(** A repeated buffer gets through the first loop and is turned away by the
    codec, which has detached it by then. *)
Lemma serialize_payload_repeated (data : value) (l1 l2 l3 : list loc) (b : loc)
    (s : state) :
  isArrayBuffer (heap s) b = true →
  (∀ t, t ∈ l1 ++ b :: l2 ++ b :: l3 → isDetachedBuffer (heap s) t = false) →
  ∃ s1 message,
    serialize_payload data (l1 ++ b :: l2 ++ b :: l3) s
    = (s1, Throw (DOMException message "OperationError")).
Proof.
  intros Hab Hat.
  unfold serialize_payload, bind, serialize_options.
  destruct (serialize_partition_loop_passes (heap s) (l1 ++ b :: l2 ++ b :: l3) 0 [] [] Hat)
    as [hostObjs Hloop].
  destruct (l1 ++ b :: l2 ++ b :: l3) as [|t ts] eqn:Ets; [by destruct l1|].
  rewrite Hloop. rewrite <- Ets. clear Hloop.
  rewrite filter_app, filter_cons_True by done.
  rewrite filter_app, filter_cons_True by done.
  unfold call_core_serialize, core_serialize. cbn [app from_option transferredArrayBuffers].
  match goal with |- context [transfer_buffers ?h ?k (?a ++ b :: ?c ++ b :: ?d)] =>
    destruct (transfer_buffers_twice h k a c d b) as (h' & err & Ht);
    destruct (transfer_buffers_error h h' k (a ++ b :: c ++ b :: d) err) as [message ->];
    [|exact Ht|rewrite Ht]
  end.
  - intros x Hx. rewrite !elem_of_app, !elem_of_cons, !elem_of_app, !elem_of_cons in Hx.
    destruct Hx as [Hx|[->|[Hx|[->|Hx]]]]; try done;
      apply list_elem_of_filter in Hx; tauto.
  - eauto.
Qed.

Lemma serializeJsMessageData_payload_throw (data : value) (ts : list loc) (s s1 : state)
    (e : exn) :
  serialize_payload data ts s = (s1, Throw e) →
  serializeJsMessageData data ts s = (s1, Throw e).
Proof. intros H. unfold serializeJsMessageData, bind. by rewrite H. Qed.

(** C7 (as stated) fails for the repeated buffer: the module has no test for
    it, so the list [[b, b]] reaches the codec, and what comes out is the
    op's own error, an OperationError, not a DataCloneError.  By then the
    failed call has detached [b]. *)
Lemma C7_counterexample :
  let s := mkState [OArrayBuffer (mkArrayBuffer [Byte.x01] false)] 0 [] in
  let r := serializeJsMessageData (VPrim PNull) [0; 0] s in
  serialize_options [0; 0] s = (s, Ok (Some (mkSerializeOptions [] [0; 0])))
  ∧ r.2 = Throw (DOMException "ArrayBuffer at index 1 is already detached" "OperationError")
  ∧ isDetachedBuffer (heap r.1) 0 = true
  ∧ trace r.1 = [].
Proof. by vm_compute. Qed.

(** C7 (amended): a transfer list that holds a detached zero-length buffer
    makes serializeJsMessageData throw a DataCloneError out of its first
    loop, with nothing changed, and [postMessage] with such a list throws a
    DataCloneError and changes nothing.  A list of attached buffers that
    names one twice gets through that loop and fails in the codec, with the
    op's OperationError and the trace untouched; so does [postMessage] on a
    port that is not in the list. *)
Theorem C7_detached_or_repeated_buffer_rejected (s : state) (data : value)
    (transferables : list loc) (b : loc) :
  isArrayBuffer (heap s) b = true →
  (b ∈ transferables →
   ArrayBufferPrototypeGetByteLength (heap s) b = 0 →
   isDetachedBuffer (heap s) b = true →
   (∃ message,
      serializeJsMessageData data transferables s
      = (s, Throw (DOMException message "DataCloneError")))
   ∧ ∀ this, isMessagePort (heap s) this = true →
       ∃ message,
         postMessage this data (ArgSequence (VRef <$> transferables)) s
         = (s, Throw (DOMException message "DataCloneError")))
  ∧ ((∃ l1 l2 l3, transferables = l1 ++ b :: l2 ++ b :: l3) →
     (∀ t, t ∈ transferables → isDetachedBuffer (heap s) t = false) →
     ∃ s1 message,
       serializeJsMessageData data transferables s
       = (s1, Throw (DOMException message "OperationError"))
       ∧ trace s1 = trace s
       ∧ ∀ this, isMessagePort (heap s) this = true → this ∉ transferables →
           postMessage this data (ArgSequence (VRef <$> transferables)) s
           = (s1, Throw (DOMException message "OperationError"))).
Proof.
  intros Hab. split.
  - intros Hin Hlen Hdet.
    destruct (serialize_payload_detached data transferables b s Hab Hin Hlen Hdet)
      as [message H].
    apply serializeJsMessageData_payload_throw in H.
    split; [by exists message|].
    intros this Hthis. unfold postMessage, bind, assertBranded. rewrite Hthis.
    rewrite sequence_object_refs.
    destruct (bool_decide (this ∈ transferables)).
    + by exists "Can not transfer self".
    + rewrite H. by exists message.
  - intros (l1 & l2 & l3 & ->) Hat.
    destruct (serialize_payload_repeated data l1 l2 l3 b s Hab Hat) as (s1 & message & H).
    pose proof (serialize_payload_trace data (l1 ++ b :: l2 ++ b :: l3) s) as Ht.
    rewrite H in Ht. cbn [fst] in Ht.
    apply serializeJsMessageData_payload_throw in H.
    exists s1, message. split; [done|]. split; [done|].
    intros this Hthis Hnotin. unfold postMessage, bind, assertBranded. rewrite Hthis.
    rewrite sequence_object_refs.
    rewrite bool_decide_eq_false_2 by done. by rewrite H.
Qed.

Lemma C7_detached_or_repeated_buffer_rejected_witness :
  let s := mkState [OArrayBuffer (mkArrayBuffer [Byte.x01] false);
                    OArrayBuffer (mkArrayBuffer [] true)] 0 [] in
  (∃ message,
     serializeJsMessageData (VPrim PNull) [0; 1] s
     = (s, Throw (DOMException message "DataCloneError")))
  ∧ (∃ s1 message,
       serializeJsMessageData (VPrim PNull) [0; 0] s
       = (s1, Throw (DOMException message "OperationError")) ∧ trace s1 = []).
Proof.
  set (s := mkState [OArrayBuffer (mkArrayBuffer [Byte.x01] false);
                     OArrayBuffer (mkArrayBuffer [] true)] 0 []).
  split.
  - apply (C7_detached_or_repeated_buffer_rejected s (VPrim PNull) [0; 1] 1 eq_refl);
      [by_decide | reflexivity | reflexivity].
  - destruct (proj2 (C7_detached_or_repeated_buffer_rejected s (VPrim PNull) [0; 0] 0 eq_refl))
      as (s1 & message & H1 & H2 & _).
    + by exists [], [], [].
    + intros t Ht. apply list_elem_of_In in Ht. simpl in Ht.
      destruct Ht as [<-|[<-|[]]]; reflexivity.
    + by exists s1, message.
Defined.

(** ** Serialization: the second loop *)

Lemma isArrayBuffer_not_port (h : list obj) (l : loc) :
  isArrayBuffer h l = true → isMessagePort h l = false.
Proof. unfold isArrayBuffer, isMessagePort. by case_lookup h l. Qed.

Lemma transfer_buffers_lookup (h : list obj) (index : nat) (bufs : list loc) (l : loc) :
  match h !! l with
  | Some (OArrayBuffer _) => ∃ ab, (transfer_buffers h index bufs).1 !! l = Some (OArrayBuffer ab)
  | o => (transfer_buffers h index bufs).1 !! l = o
  end.
Proof.
  revert h index. induction bufs as [|b bufs IH]; intros h index.
  - simpl. destruct (h !! l) as [[]|]; eauto.
  - cbn [transfer_buffers].
    destruct (h !! b) as [[fields|ab|port|c]|] eqn:Eb;
      try (simpl; destruct (h !! l) as [[]|]; by eauto).
    destruct (ab_detached ab); [simpl; destruct (h !! l) as [[]|]; by eauto|].
    specialize (IH (<[b := OArrayBuffer (mkArrayBuffer [] true)]> h) (S index)).
    destruct (transfer_buffers _ (S index) bufs) as [h' [err|stores]]; cbn [fst] in *.
    + destruct (decide (b = l)) as [->|Hne].
      * rewrite list_lookup_insert_eq in IH by (by eapply lookup_lt_Some).
        by rewrite Eb.
      * by rewrite list_lookup_insert_ne in IH.
    + destruct (decide (b = l)) as [->|Hne].
      * rewrite list_lookup_insert_eq in IH by (by eapply lookup_lt_Some).
        by rewrite Eb.
      * by rewrite list_lookup_insert_ne in IH.
Qed.

Lemma serialize_payload_lookup (data : value) (ts : list loc) (s : state) (l : loc) :
  match heap s !! l with
  | Some (OArrayBuffer _) =>
    ∃ ab, heap (serialize_payload data ts s).1 !! l = Some (OArrayBuffer ab)
  | o => heap (serialize_payload data ts s).1 !! l = o
  end.
Proof.
  assert (∀ options,
    match heap s !! l with
    | Some (OArrayBuffer _) =>
      ∃ ab, heap (call_core_serialize data options s).1 !! l = Some (OArrayBuffer ab)
    | o => heap (call_core_serialize data options s).1 !! l = o
    end) as Hcall.
  { intros options. unfold call_core_serialize, core_serialize.
    pose proof (transfer_buffers_lookup (heap s) 0
                  (from_option transferredArrayBuffers [] options) l) as H.
    destruct (transfer_buffers _ _ _) as [h' [err|stores]]; cbn [fst] in *; [done|].
    by destruct (serialize_graph _ _ _ _). }
  unfold serialize_payload, bind, serialize_options.
  destruct ts as [|t ts]; [apply Hcall|].
  destruct (serialize_partition_loop _ _ _ _ _) as [e|[hostObjs bufs]]; [|apply Hcall].
  cbn [fst]. destruct (heap s !! l) as [[]|]; eauto.
Qed.

Lemma serialize_payload_port (data : value) (ts : list loc) (s : state) (l : loc) :
  get_port (heap (serialize_payload data ts s).1) l = get_port (heap s) l.
Proof.
  pose proof (serialize_payload_lookup data ts s l) as H. unfold get_port.
  destruct (heap s !! l) as [[fields|ab|port|c]|]; try by rewrite H.
  destruct H as [ab' ->]. done.
Qed.

Lemma serialize_payload_port_id (data : value) (ts : list loc) (s : state) (l : loc) :
  port_id (serialize_payload data ts s).1 l = port_id s l.
Proof. unfold port_id. by rewrite serialize_payload_port. Qed.

Lemma serialize_payload_isArrayBuffer (data : value) (ts : list loc) (s : state) (l : loc) :
  isArrayBuffer (heap (serialize_payload data ts s).1) l = isArrayBuffer (heap s) l.
Proof.
  pose proof (serialize_payload_lookup data ts s l) as H. unfold isArrayBuffer.
  destruct (heap s !! l) as [[fields|ab|port|c]|]; try by rewrite H.
  destruct H as [ab' ->]. done.
Qed.

Lemma serialize_payload_isMessagePort (data : value) (ts : list loc) (s : state) (l : loc) :
  isMessagePort (heap (serialize_payload data ts s).1) l = isMessagePort (heap s) l.
Proof.
  pose proof (serialize_payload_lookup data ts s l) as H. unfold isMessagePort.
  destruct (heap s !! l) as [[fields|ab|port|c]|]; try by rewrite H.
  destruct H as [ab' ->]. done.
Qed.

Lemma serialize_transferables_loop_trace (ts : list loc) (tabs : list backing_store)
    (k : nat) (acc : list Transferable) (s : state) :
  trace (serialize_transferables_loop ts tabs k acc s).1 = trace s.
Proof.
  revert k acc s. induction ts as [|t ts IH]; intros k acc s; [done|].
  cbn [serialize_transferables_loop].
  destruct (isMessagePort (heap s) t).
  - destruct (port_id s t); [|done]. by rewrite IH, trace_update_port.
  - destruct (isArrayBuffer (heap s) t); [apply IH | done].
Qed.

Lemma serialize_transferables_loop_stays_none (ts : list loc) (tabs : list backing_store)
    (k : nat) (acc : list Transferable) (s : state) (l : loc) :
  port_id s l = None →
  port_id (serialize_transferables_loop ts tabs k acc s).1 l = None.
Proof.
  revert k acc s. induction ts as [|t ts IH]; intros k acc s H; [done|].
  cbn [serialize_transferables_loop].
  destruct (isMessagePort (heap s) t).
  - destruct (port_id s t); [|done]. apply IH.
    rewrite port_id_consume. by destruct (decide (t = l)).
  - destruct (isArrayBuffer (heap s) t); [by apply IH | done].
Qed.

Lemma serialize_transferables_loop_others (ts : list loc) (tabs : list backing_store)
    (k : nat) (acc : list Transferable) (s : state) (l : loc) :
  l ∉ ts →
  port_id (serialize_transferables_loop ts tabs k acc s).1 l = port_id s l.
Proof.
  revert k acc s. induction ts as [|t ts IH]; intros k acc s H; [done|].
  apply not_elem_of_cons in H as [Hne Hnin].
  cbn [serialize_transferables_loop].
  destruct (isMessagePort (heap s) t).
  - destruct (port_id s t); [|done]. rewrite IH by done.
    rewrite port_id_consume. by destruct (decide (t = l)).
  - destruct (isArrayBuffer (heap s) t); [by apply IH | done].
Qed.

(** The loop gets past a prefix of transferable entries, consuming its
    ports, and goes on with the rest of the list. *)
Lemma serialize_transferables_loop_prefix (pre rest : list loc) (tabs : list backing_store)
    (k : nat) (acc : list Transferable) (s : state) :
  NoDup pre →
  Forall (transferable_entry s) pre →
  ∃ k' acc' s1,
    serialize_transferables_loop (pre ++ rest) tabs k acc s
      = serialize_transferables_loop rest tabs k' acc' s1
    ∧ trace s1 = trace s
    ∧ (∀ l, isArrayBuffer (heap s1) l = isArrayBuffer (heap s) l)
    ∧ (∀ l, isMessagePort (heap s1) l = isMessagePort (heap s) l)
    ∧ (∀ l, l ∈ pre → isMessagePort (heap s) l = true → port_id s1 l = None)
    ∧ (∀ l, l ∉ pre → port_id s1 l = port_id s l).
Proof.
  revert k acc s. induction pre as [|t pre IH]; intros k acc s Hnd Hall.
  - exists k, acc, s. split; [done|]. split; [done|]. split; [done|]. split; [done|].
    split; [|done]. intros l Hl. by apply elem_of_nil in Hl.
  - apply NoDup_cons in Hnd as [Hnin Hnd].
    apply Forall_cons in Hall as [Ht Hall].
    cbn [app serialize_transferables_loop].
    destruct Ht as [Hab|[id Hid]].
    + rewrite (isArrayBuffer_not_port _ _ Hab), Hab.
      destruct (IH (S k)
                  (ArrayPrototypePush acc (TransferArrayBuffer (tabs !! k))).1 s Hnd Hall)
        as (k' & acc' & s1 & E & Htr & Hk1 & Hk2 & Hcons & Hoth).
      exists k', acc', s1. split; [done|]. split; [done|]. split; [done|]. split; [done|].
      split.
      * intros l [->|Hl]%elem_of_cons Hport; [|by apply Hcons].
        apply isArrayBuffer_not_port in Hab. congruence.
      * intros l [Hne Hl]%not_elem_of_cons. by apply Hoth.
    + rewrite (port_id_is_port _ _ _ Hid), Hid.
      set (s' := update_port t (set_id None) s).
      assert (Forall (transferable_entry s') pre) as Hall'.
      { apply Forall_forall. intros q Hq.
        rewrite Forall_forall in Hall. specialize (Hall q Hq).
        unfold transferable_entry, s'. rewrite isArrayBuffer_update_port, port_id_consume.
        destruct (decide (t = q)) as [->|]; [done|]. exact Hall. }
      destruct (IH k (ArrayPrototypePush acc (TransferMessagePort id)).1 s' Hnd Hall')
        as (k' & acc' & s1 & E & Htr & Hk1 & Hk2 & Hcons & Hoth).
      exists k', acc', s1. split; [done|].
      split; [by rewrite Htr; apply trace_update_port|].
      split; [intros l; by rewrite Hk1; apply isArrayBuffer_update_port|].
      split; [intros l; by rewrite Hk2; apply isMessagePort_update_port|].
      split.
      * intros l [->|Hl]%elem_of_cons Hport.
        -- rewrite Hoth by done. unfold s'. rewrite port_id_consume.
           by destruct (decide (t = t)).
        -- apply Hcons; [done|]. unfold s'. by rewrite isMessagePort_update_port.
      * intros l [Hne Hl]%not_elem_of_cons. rewrite Hoth by done.
        unfold s'. rewrite port_id_consume. by destruct (decide (t = l)).
Qed.

Lemma transferable_entry_payload (data : value) (ts : list loc) (s : state) (t : loc) :
  transferable_entry s t → transferable_entry (serialize_payload data ts s).1 t.
Proof.
  unfold transferable_entry.
  by rewrite serialize_payload_isArrayBuffer, serialize_payload_port_id.
Qed.

(** ** Ports in the transfer list *)

(** C1 as stated fails: an entry the second loop rejects before it reaches
    [p] ends the call with [p] still entangled. *)
Lemma C1_counterexample :
  let s := mkState [OMessagePort (mkMessagePort (Some 1%Z) false false false None false []);
                    OMessagePort (mkMessagePort (Some 7%Z) false false false None false []);
                    OPlain []] 0 [] in
  let r := postMessage 0 (VPrim PNull) (ArgSequence [VRef 2; VRef 1]) s in
  port_id s 1 = Some 7%Z
  ∧ r.2 = Throw (DOMException "Value not transferable" "DataCloneError")
  ∧ port_id r.1 1 ≠ None.
Proof. vm_compute. split; [done|]. split; [done|]. discriminate. Qed.

(** C1 (amended): when serialization reaches [p] (no detached buffer in the
    list, the codec accepts the message, and the entries before [p] are
    buffers and still-entangled ports, none listed twice), [p] has transport
    id None once serializeJsMessageData is over, whether it returned or threw
    further down the list, and serialization itself leaves the trace alone.
    [postMessage] then does nothing more than post the envelope, in a state
    where [p] is already consumed; when the posting port has no transport id
    it returns without touching the transport. *)
Theorem C1_transfer_consumes_port_before_post (s : state) (this : loc) (message : value)
    (pre post : list loc) (p : loc) (id : rid) :
  isMessagePort (heap s) this = true →
  this ∉ pre ++ p :: post →
  port_id s p = Some id →
  NoDup (p :: pre) →
  Forall (transferable_entry s) pre →
  (∃ r, (serialize_payload message (pre ++ p :: post) s).2 = Ok r) →
  let r := serializeJsMessageData message (pre ++ p :: post) s in
  port_id r.1 p = None
  ∧ trace r.1 = trace s
  ∧ port_id r.1 this = port_id s this
  ∧ postMessage this message (ArgSequence (VRef <$> pre ++ p :: post)) s
    = match r.2 with
      | Ok data =>
        match port_id r.1 this with
        | Some tid => (emit (EffPostMessage tid data) r.1, Ok tt)
        | None => (r.1, Ok tt)
        end
      | Throw e => (r.1, Throw e)
      end.
Proof.
  intros Hthis Hnin Hid [Hp Hnd]%NoDup_cons Hall [payload Hpay] r.
  assert (port_id r.1 p = None ∧ trace r.1 = trace s ∧ port_id r.1 this = port_id s this)
    as (H1 & H2 & H3).
  { unfold r, serializeJsMessageData, bind.
    pose proof (serialize_payload_trace message (pre ++ p :: post) s) as Htr0.
    pose proof (serialize_payload_port_id message (pre ++ p :: post) s) as Hid0.
    assert (Forall (transferable_entry (serialize_payload message (pre ++ p :: post) s).1) pre)
      as Hall0.
    { eapply Forall_impl; [exact Hall|]. intros t. apply transferable_entry_payload. }
    destruct (serialize_payload message (pre ++ p :: post) s) as [s0 [r0|e]]; [|done].
    cbn [fst snd] in *.
    destruct (serialize_transferables_loop_prefix pre (p :: post) r0.2 0 [] s0 Hnd Hall0)
      as (k' & acc' & s1 & E & Htr & _ & _ & _ & Hoth).
    assert (trace (serialize_transferables_loop (pre ++ p :: post) r0.2 0 [] s0).1 = trace s
            ∧ port_id (serialize_transferables_loop (pre ++ p :: post) r0.2 0 [] s0).1 this
              = port_id s this) as [Ha Hb].
    { split.
      - by rewrite serialize_transferables_loop_trace.
      - by rewrite serialize_transferables_loop_others, Hid0. }
    assert (port_id (serialize_transferables_loop (pre ++ p :: post) r0.2 0 [] s0).1 p = None)
      as Hc.
    { rewrite E. cbn [serialize_transferables_loop].
      assert (port_id s1 p = Some id) as Hid1 by (by rewrite Hoth, Hid0).
      rewrite (port_id_is_port _ _ _ Hid1), Hid1.
      apply serialize_transferables_loop_stays_none.
      rewrite port_id_consume. by destruct (decide (p = p)). }
    destruct (serialize_transferables_loop (pre ++ p :: post) r0.2 0 [] s0) as [s2 [d|e]];
      cbn [fst] in *; unfold ret; cbn [fst]; done. }
  split; [done|]. split; [done|]. split; [done|].
  unfold postMessage, bind, assertBranded. rewrite Hthis.
  rewrite sequence_object_refs.
  rewrite bool_decide_eq_false_2 by done.
  fold r. destruct r as [s1 [data|e]]; cbn [fst snd]; [|done].
  unfold get_state, modify. by destruct (port_id s1 this).
Qed.

Lemma C1_transfer_consumes_port_before_post_witness :
  let s := mkState [OMessagePort (mkMessagePort None false false false None false []);
                    OMessagePort (mkMessagePort (Some 7%Z) false false false None false []);
                    OArrayBuffer (mkArrayBuffer [Byte.x2a] false);
                    OPlain []] 0 [] in
  port_id (serializeJsMessageData (VPrim PNull) [2; 1; 3] s).1 1 = None
  ∧ port_id (postMessage 0 (VPrim PNull) (ArgSequence [VRef 2; VRef 1]) s).1 1 = None
  ∧ trace (postMessage 0 (VPrim PNull) (ArgSequence [VRef 2; VRef 1]) s).1 = [].
Proof.
  set (s := mkState [OMessagePort (mkMessagePort None false false false None false []);
                     OMessagePort (mkMessagePort (Some 7%Z) false false false None false []);
                     OArrayBuffer (mkArrayBuffer [Byte.x2a] false);
                     OPlain []] 0 []).
  assert (NoDup [1; 2]) as Hnd by (by_decide).
  assert (Forall (transferable_entry s) [2]) as Hall.
  { constructor; [by left | constructor]. }
  split; [|split].
  - apply (C1_transfer_consumes_port_before_post s 0 (VPrim PNull) [2] [3] 1 7%Z eq_refl);
      [ by_decide | reflexivity | exact Hnd | exact Hall
      | eexists; reflexivity ].
  - destruct (C1_transfer_consumes_port_before_post s 0 (VPrim PNull) [2] [] 1 7%Z eq_refl)
      as (H1 & H2 & H3 & H4);
      [ by_decide | reflexivity | exact Hnd | exact Hall
      | eexists; reflexivity | ].
    change (VRef <$> [2] ++ [1]) with [VRef 2; VRef 1] in H4. rewrite H4.
    exact H1.
  - destruct (C1_transfer_consumes_port_before_post s 0 (VPrim PNull) [2] [] 1 7%Z eq_refl)
      as (H1 & H2 & H3 & H4);
      [ by_decide | reflexivity | exact Hnd | exact Hall
      | eexists; reflexivity | ].
    change (VRef <$> [2] ++ [1]) with [VRef 2; VRef 1] in H4. rewrite H4.
    exact H2.
Defined.

(** C10 as stated fails: a value that is not transferable and comes before
    [p] stops the loop before it reaches [p]. *)
Lemma C10_counterexample :
  let s := mkState [OMessagePort (mkMessagePort (Some 7%Z) false false false None false []);
                    OPlain []] 0 [] in
  let r := serializeJsMessageData (VPrim PNull) [1; 0; 1] s in
  port_id s 0 = Some 7%Z
  ∧ r.2 = Throw (DOMException "Value not transferable" "DataCloneError")
  ∧ port_id r.1 0 ≠ None.
Proof. vm_compute. split; [done|]. split; [done|]. discriminate. Qed.

(** C10 (amended): when [x] is the first entry of the transfer list that is
    neither a buffer nor a port, the entries before it are buffers and
    still-entangled ports, none listed twice, no buffer in the list is
    detached and the codec accepts the message, serializeJsMessageData
    throws DataCloneError "Value not transferable" and every port listed
    before [x] has lost its transport id all the same. *)
Theorem C10_failed_serialization_consumes_ports (s : state) (data : value)
    (pre post : list loc) (x : loc) :
  NoDup pre →
  Forall (transferable_entry s) pre →
  isArrayBuffer (heap s) x = false →
  isMessagePort (heap s) x = false →
  (∃ r, (serialize_payload data (pre ++ x :: post) s).2 = Ok r) →
  let r := serializeJsMessageData data (pre ++ x :: post) s in
  r.2 = Throw (DOMException "Value not transferable" "DataCloneError")
  ∧ trace r.1 = trace s
  ∧ ∀ p id, p ∈ pre → port_id s p = Some id → port_id r.1 p = None.
Proof.
  intros Hnd Hall Hx1 Hx2 [payload Hpay] r.
  unfold r, serializeJsMessageData, bind.
  pose proof (serialize_payload_trace data (pre ++ x :: post) s) as Htr0.
  pose proof (serialize_payload_isArrayBuffer data (pre ++ x :: post) s) as Hab0.
  pose proof (serialize_payload_isMessagePort data (pre ++ x :: post) s) as Hmp0.
  assert (Forall (transferable_entry (serialize_payload data (pre ++ x :: post) s).1) pre)
    as Hall0.
  { eapply Forall_impl; [exact Hall|]. intros t. apply transferable_entry_payload. }
  destruct (serialize_payload data (pre ++ x :: post) s) as [s0 [r0|e]]; [|done].
  cbn [fst snd] in *.
  destruct (serialize_transferables_loop_prefix pre (x :: post) r0.2 0 [] s0 Hnd Hall0)
    as (k' & acc' & s1 & E & Htr & Hk1 & Hk2 & Hcons & _).
  rewrite E. cbn [serialize_transferables_loop].
  rewrite Hk2, Hmp0, Hx2, Hk1, Hab0, Hx1. cbn [fst snd].
  split; [done|]. split; [congruence|].
  intros p id Hp Hid. apply Hcons; [done|].
  rewrite Hmp0. by eapply port_id_is_port.
Qed.

Lemma C10_failed_serialization_consumes_ports_witness :
  let s := mkState [OMessagePort (mkMessagePort (Some 7%Z) false false false None false []);
                    OPlain []] 0 [] in
  (serializeJsMessageData (VPrim PNull) [0; 1] s).2
    = Throw (DOMException "Value not transferable" "DataCloneError")
  ∧ port_id (serializeJsMessageData (VPrim PNull) [0; 1] s).1 0 = None.
Proof.
  set (s := mkState [OMessagePort (mkMessagePort (Some 7%Z) false false false None false []);
                     OPlain []] 0 []).
  destruct (C10_failed_serialization_consumes_ports s (VPrim PNull) [0] [] 1)
    as (H1 & H2 & H3).
  - by_decide.
  - constructor; [right; by exists 7%Z | constructor].
  - reflexivity.
  - reflexivity.
  - eexists; reflexivity.
  - split; [exact H1|]. apply (H3 0 7%Z); [by left | reflexivity].
Defined.

(** ** Listeners and the receive loop *)

(** C5 as stated fails: [addEventListener("message", ...)] does not start the
    receive loop.  In the scenario the port that listens is not enabled, no
    receive was issued for it, and the listener has not been called; it is
    [start()] that enables the port and issues the receive. *)
Lemma C5_counterexample :
  let s := (scenario 1%Z 2%Z 42 (mkState scenario_heap 0 [])).1 in
  port_enabled s 2 = false
  ∧ trace s = [EffCreateEntangled (1%Z, 2%Z); EffPostMessage 1%Z scenario_envelope]
  ∧ listener_calls 42 (trace s) = []
  ∧ port_enabled (start 2 s).1 2 = true
  ∧ trace (start 2 s).1 = trace s ++ [EffRecvMessage 2%Z].
Proof. vm_compute. done. Qed.

(** C5 (amended): [addEventListener("message", l)] adds one to the shared
    listener counter, marks the port ref'd and registers [l], and leaves
    [_enabled] and the trace as they were: no receive loop is started.  The
    loop is started by [start()], which is also what the initializer of the
    "message" event handler calls.  In the scenario the envelope is posted
    and nothing is delivered; once the listening port is started and the
    transport hands it the envelope, the listener is called exactly once,
    with a copy of [{a: 1}] as data and no ports. *)
Theorem C5_listener_refs_but_start_receives (s : state) (p : loc) (l : listener)
    (id1 id2 : rid) (onMsg : listener) :
  isMessagePort (heap s) p = true →
  (let s' := (addEventListener p "message" l s).1 in
   messageEventListenerCount s' = (messageEventListenerCount s + 1)%Z
   ∧ port_refed s' p = true
   ∧ port_enabled s' p = port_enabled s p
   ∧ port_id s' p = port_id s p
   ∧ trace s' = trace s
   ∧ (∃ port, get_port (heap s') p = Some port ∧ ("message", l) ∈ listeners port))
  ∧ message_handler_init p = start p
  ∧ (let s1 := (scenario id1 id2 onMsg (mkState scenario_heap 0 [])).1 in
     trace s1 = [EffCreateEntangled (id1, id2); EffPostMessage id1 scenario_envelope]
     ∧ port_enabled s1 2 = false
     ∧ (start 2 s1).2 = Ok (Some (TaskSuspended id2))
     ∧ let s3 := (run_task 2 [RecvData scenario_envelope] (TaskSuspended id2)
                    (start 2 s1).1).1 in
       listener_calls onMsg (trace s3)
         = [mkMessageEvent "message" (DataValue (VRef 3)) []]
       ∧ heap s3 !! 3 = Some (OPlain [("a", VPrim (PNumber 1))])).
Proof.
  intros Hp. split; [|split; [done|]].
  - apply isMessagePort_get_port in Hp as [port Hport].
    unfold addEventListener, bind, modify, super_addEventListener.
    rewrite bool_decide_eq_true_2 by done. cbn [fst].
    set (s1 := set_count _ _).
    assert (∃ port1, get_port (heap s1) p = Some port1
                     ∧ _refed port1 = true ∧ _enabled port1 = _enabled port
                     ∧ _id port1 = _id port ∧ listeners port1 = listeners port)
      as (port1 & Hport1 & Hr1 & He1 & Hi1 & Hl1).
    { unfold s1, set_count. cbn [heap].
      destruct (port_refed s p) eqn:Hr.
      - exists port. unfold port_refed in Hr. rewrite Hport in Hr. done.
      - exists (set_refed true port). split; [|done].
        by apply get_port_update_eq. }
    assert (messageEventListenerCount s1 = (messageEventListenerCount s + 1)%Z
            ∧ trace s1 = trace s) as [Hc1 Ht1].
    { unfold s1, set_count. cbn [messageEventListenerCount trace].
      destruct (port_refed s p); by rewrite ?trace_update_port. }
    unfold modify. cbn [fst].
    rewrite count_update_port, trace_update_port.
    unfold port_refed, port_enabled, port_id.
    rewrite (get_port_update_eq _ _ _ _ Hport1).
    split; [done|].
    destruct (bool_decide (("message", l) ∈ listeners port1)) eqn:Hin.
    + rewrite Hport. split; [done|]. split; [done|]. split; [done|]. split; [done|].
      eexists. split; [done|]. by apply bool_decide_eq_true in Hin.
    + rewrite Hport. cbn. split; [done|]. split; [done|]. split; [done|]. split; [done|].
      eexists. split; [done|]. cbn. apply elem_of_app. right. by left.
  - cbv zeta.
    split; [by vm_compute|]. split; [by vm_compute|]. split; [by vm_compute|].
    split; [|by vm_compute].
    assert (trace (run_task 2 [RecvData scenario_envelope] (TaskSuspended id2)
                     (start 2 (scenario id1 id2 onMsg (mkState scenario_heap 0 [])).1).1).1
            = [EffCreateEntangled (id1, id2); EffPostMessage id1 scenario_envelope;
               EffRecvMessage id2;
               EffListener onMsg 2 (mkMessageEvent "message" (DataValue (VRef 3)) []);
               EffRecvMessage id2]) as -> by by vm_compute.
    unfold listener_calls. cbn. by rewrite Nat.eqb_refl.
Qed.

Lemma C5_listener_refs_but_start_receives_witness :
  let s := mkState [OMessagePort (mkMessagePort (Some 2%Z) false false false None false [])] 0 [] in
  isMessagePort (heap s) 0 = true
  ∧ port_refed (addEventListener 0 "message" 42 s).1 0 = true
  ∧ port_enabled (addEventListener 0 "message" 42 s).1 0 = false
  ∧ trace (addEventListener 0 "message" 42 s).1 = [].
Proof.
  set (s := mkState [OMessagePort (mkMessagePort (Some 2%Z) false false false None false [])] 0 []).
  destruct (C5_listener_refs_but_start_receives s 0 42 1%Z 2%Z 42 eq_refl)
    as ((H1 & H2 & H3 & H4 & H5 & H6) & _).
  split; [reflexivity|]. split; [exact H2|]. split; [exact H3 | exact H5].
Defined.

(** ** The codec: collecting the objects to copy *)

Section traversal.
Context (h : list obj) (stop : list loc).

Lemma succs_spec (l l' : loc) :
  l' ∈ succs h l ↔ ∃ fields k, h !! l = Some (OPlain fields) ∧ (k, VRef l') ∈ fields.
Proof.
  unfold succs. split.
  - destruct (h !! l) as [[fields|b|p|c]|]; try (by intros H%elem_of_nil).
    intros [[k w] [Hin Hw]]%list_elem_of_omap.
    unfold ref_of in Hw. simpl in Hw. destruct w as [|l'']; [done|].
    injection Hw as ->. eauto.
  - intros (fields & k & -> & Hin). apply list_elem_of_omap.
    by exists (k, VRef l').
Qed.

Lemma succs_out_of_range (l : loc) : length h ≤ l → succs h l = [].
Proof. intros H. unfold succs. by rewrite lookup_ge_None_2. Qed.

Lemma degree_sum_mono (seen ls : list loc) (l : loc) :
  degree_sum h (seen ++ [l]) ls ≤ degree_sum h seen ls.
Proof.
  unfold degree_sum. induction ls as [|x ls IH]; [done|]. simpl.
  destruct (bool_decide (x ∈ seen)) eqn:E.
  - apply bool_decide_eq_true in E.
    rewrite bool_decide_eq_true_2 by (apply elem_of_app; by left). simpl. lia.
  - destruct (bool_decide (x ∈ seen ++ [l])); simpl; lia.
Qed.

Lemma degree_sum_add (seen ls : list loc) (l : loc) :
  l ∈ ls → l ∉ seen →
  degree_sum h (seen ++ [l]) ls + length (succs h l) ≤ degree_sum h seen ls.
Proof.
  intros Hin Hnot. induction ls as [|x ls IH]; [by apply elem_of_nil in Hin|].
  pose proof (degree_sum_mono seen ls l) as Hmono.
  unfold degree_sum in *. simpl.
  destruct (decide (x = l)) as [->|Hne].
  - rewrite (bool_decide_eq_false_2 (l ∈ seen)) by done.
    rewrite bool_decide_eq_true_2 by (apply elem_of_app; right; by left).
    simpl. lia.
  - apply elem_of_cons in Hin as [->|Hin]; [done|]. specialize (IH Hin).
    assert (bool_decide (x ∈ seen ++ [l]) = bool_decide (x ∈ seen)) as ->.
    { apply bool_decide_ext. rewrite elem_of_app, list_elem_of_singleton. tauto. }
    lia.
Qed.

Lemma degree_sum_visit (seen : list loc) (l : loc) :
  l ∉ seen →
  degree_sum h (seen ++ [l]) (seq 0 (length h)) + length (succs h l)
  ≤ degree_sum h seen (seq 0 (length h)).
Proof.
  intros Hnot. destruct (decide (l < length h)) as [Hlt|Hge].
  - apply degree_sum_add; [|done]. apply elem_of_seq. lia.
  - rewrite succs_out_of_range by lia. simpl.
    pose proof (degree_sum_mono seen (seq 0 (length h)) l). lia.
Qed.

(** The traversal never runs out of fuel. *)
Lemma collect_total (fuel : nat) (todo seen : list loc) :
  length todo + degree_sum h seen (seq 0 (length h)) ≤ fuel →
  is_Some (collect h stop fuel todo seen).
Proof.
  revert todo seen. induction fuel as [|fuel IH]; intros todo seen Hfuel.
  - destruct todo; [by eexists | simpl in Hfuel; lia].
  - destruct todo as [|l todo]; [by eexists|]. cbn [collect].
    destruct (bool_decide (l ∈ seen)) eqn:Eseen; cbn [orb].
    + apply IH. simpl in Hfuel. lia.
    + apply bool_decide_eq_false in Eseen.
      destruct (bool_decide (l ∈ stop)).
      * apply IH. simpl in Hfuel. lia.
      * apply IH. rewrite length_app. simpl in Hfuel.
        pose proof (degree_sum_visit seen l Eseen). lia.
Qed.

(** What the traversal returns holds what was marked already and what was
    still to do (unless passed by reference), is closed under references,
    and has no duplicates. *)
Lemma collect_closed (fuel : nat) (todo seen nodes : list loc) :
  collect h stop fuel todo seen = Some nodes →
  (∀ l, l ∈ seen → l ∈ nodes)
  ∧ (∀ l, l ∈ todo → l ∈ nodes ∨ l ∈ stop)
  ∧ (∀ l, l ∈ nodes → l ∈ seen ∨ ∀ l', l' ∈ succs h l → l' ∈ nodes ∨ l' ∈ stop)
  ∧ (NoDup seen → NoDup nodes).
Proof.
  revert todo seen. induction fuel as [|fuel IH]; intros todo seen.
  - destruct todo; [|done]. intros [= <-].
    split; [done|]. split; [by intros l H%elem_of_nil|]. split; [by left | done].
  - destruct todo as [|l todo].
    { intros [= <-].
      split; [done|]. split; [by intros l H%elem_of_nil|]. split; [by left | done]. }
    cbn [collect].
    destruct (bool_decide (l ∈ seen) || bool_decide (l ∈ stop)) eqn:E.
    + intros (H1 & H2 & H3 & H4)%IH. split; [done|]. split; [|done].
      intros l0 [->|Hl0]%elem_of_cons; [|by apply H2].
      apply orb_true_iff in E as [E%bool_decide_eq_true|E%bool_decide_eq_true].
      * left. by apply H1.
      * by right.
    + apply orb_false_iff in E as [E1%bool_decide_eq_false E2%bool_decide_eq_false].
      intros (H1 & H2 & H3 & H4)%IH. split; [|split; [|split]].
      * intros l0 Hl0. apply H1. apply elem_of_app. by left.
      * intros l0 [->|Hl0]%elem_of_cons.
        -- left. apply H1. apply elem_of_app. right. by left.
        -- apply H2. apply elem_of_app. by right.
      * intros l0 Hl0. destruct (H3 l0 Hl0) as [Hs|Hs]; [|by right].
        apply elem_of_app in Hs as [Hs|Hs%list_elem_of_singleton]; [by left|].
        subst l0. right. intros l' Hl'. apply H2. apply elem_of_app. by left.
      * intros Hnd. apply H4. apply NoDup_app. split; [done|].
        split; [|apply NoDup_singleton].
        intros x Hx Hx'%list_elem_of_singleton. by subst x.
Qed.

(** Whatever the traversal returns was reached from the work list. *)
Lemma collect_sound (Q : loc → Prop) (fuel : nat) (todo seen nodes : list loc) :
  (∀ l l', Q l → l' ∈ succs h l → Q l') →
  (∀ l, l ∈ todo → Q l) →
  (∀ l, l ∈ seen → Q l) →
  collect h stop fuel todo seen = Some nodes →
  ∀ l, l ∈ nodes → Q l.
Proof.
  intros Hstep. revert todo seen. induction fuel as [|fuel IH]; intros todo seen Htodo Hseen.
  - destruct todo; [|done]. by intros [= <-].
  - destruct todo as [|l todo]; [by intros [= <-]|]. cbn [collect].
    destruct (bool_decide (l ∈ seen) || bool_decide (l ∈ stop)).
    + apply IH; [|done]. intros l0 Hl0. apply Htodo. by right.
    + apply IH.
      * intros l0 [Hl0|Hl0]%elem_of_app.
        -- eapply Hstep; [|exact Hl0]. apply Htodo. by left.
        -- apply Htodo. by right.
      * intros l0 [Hl0|Hl0%list_elem_of_singleton]%elem_of_app; [by apply Hseen|].
        subst l0. apply Htodo. by left.
Qed.

End traversal.

Lemma index_of_lookup (l : loc) (ls : list loc) (i : nat) :
  index_of l ls = Some i → ls !! i = Some l.
Proof.
  revert i. induction ls as [|x ls IH]; intros i; [done|]. simpl.
  destruct (Nat.eqb x l) eqn:E.
  - apply Nat.eqb_eq in E as ->. by intros [= <-].
  - destruct (index_of l ls) as [j|]; [|done]. intros [= <-]. by apply IH.
Qed.

Lemma index_of_elem (l : loc) (ls : list loc) : l ∈ ls → is_Some (index_of l ls).
Proof.
  induction ls as [|x ls IH]; [by intros H%elem_of_nil|]. simpl.
  destruct (Nat.eqb x l) eqn:E; [by eexists|].
  intros [->|H]%elem_of_cons; [by rewrite Nat.eqb_refl in E|].
  destruct (IH H) as [j ->]. by eexists.
Qed.

(** ** The codec: encoding and decoding *)

Section encode_decode.
Context (h : list obj) (nodes : list loc) (base : nat).

Lemma encode_decode_value (v : value) (sv : svalue) :
  encode_value [] [] nodes v = Some sv →
  ∃ v', decode_value base 0 (length nodes) [] sv = Some v'
        ∧ val_rel (clone_rel nodes base) v v'
        ∧ fresh_value base v'.
Proof.
  destruct v as [p|l]; simpl.
  - intros [= <-]. by exists (VPrim p).
  - destruct (index_of l nodes) as [i|] eqn:E; [|done]. intros [= <-].
    apply index_of_lookup in E. pose proof (lookup_lt_Some _ _ _ E) as Hlt.
    exists (VRef (base + i)). simpl.
    apply Nat.ltb_lt in Hlt. rewrite Hlt, Nat.add_0_r.
    split; [done|]. split; [by exists i | lia].
Qed.

Lemma encode_decode_fields (fields : list (string * value))
    (sfields : list (string * svalue)) :
  mapM (encode_field [] [] nodes) fields = Some sfields →
  ∃ fields',
    mapM (decode_field base 0 (length nodes) []) sfields = Some fields'
    ∧ Forall2 (fun kv kv' => kv.1 = kv'.1 ∧ val_rel (clone_rel nodes base) kv.2 kv'.2)
        fields fields'
    ∧ Forall (fun kv => fresh_value base kv.2) fields'.
Proof.
  intros H%mapM_Some_1. induction H as [|[k v] [k' sv] fields sfields Hx Hrest IH].
  - by exists [].
  - destruct IH as (fields' & Hdec & Hrel & Hfresh).
    unfold encode_field in Hx. simpl in Hx.
    destruct (encode_value [] [] nodes v) as [sv0|] eqn:Ev; [|done].
    injection Hx as <- <-.
    destruct (encode_decode_value v sv0 Ev) as (v' & Hv & Hvr & Hvf).
    exists ((k, v') :: fields'). split; [|split].
    + apply mapM_Some_2. constructor.
      * unfold decode_field. simpl. by rewrite Hv.
      * by apply mapM_Some_1.
    + by constructor.
    + by constructor.
Qed.

Lemma encode_decode_node (l : loc) (sn : snode) :
  encode_node h [] [] nodes l = Some sn →
  ∃ o o', h !! l = Some o
          ∧ decode_node base 0 (length nodes) [] sn = Some o'
          ∧ obj_rel (clone_rel nodes base) o o'
          ∧ fresh_obj base o'.
Proof.
  unfold encode_node. destruct (h !! l) as [[fields|[bytes det]|p|c]|]; try done.
  - destruct (mapM _ fields) as [sfields|] eqn:E; [|done]. intros [= <-].
    destruct (encode_decode_fields fields sfields E) as (fields' & Hd & Hr & Hf).
    exists (OPlain fields), (OPlain fields'). simpl. by rewrite Hd.
  - simpl. destruct det; [done|]. intros [= <-].
    by exists (OArrayBuffer (mkArrayBuffer bytes false)),
              (OArrayBuffer (mkArrayBuffer bytes false)).
Qed.

Lemma encode_decode_nodes (ls : list loc) (sns : list snode) :
  mapM (encode_node h [] [] nodes) ls = Some sns →
  ∃ objs,
    mapM (decode_node base 0 (length nodes) []) sns = Some objs
    ∧ Forall2 (fun l o' => ∃ o, h !! l = Some o
                                ∧ obj_rel (clone_rel nodes base) o o'
                                ∧ fresh_obj base o') ls objs.
Proof.
  intros H%mapM_Some_1. induction H as [|l sn ls sns Hx Hrest IH].
  - by exists [].
  - destruct IH as (objs & Hdec & Hrel).
    destruct (encode_decode_node l sn Hx) as (o & o' & Ho & Hd & Hr & Hf).
    exists (o' :: objs). split.
    + apply mapM_Some_2. constructor; [done | by apply mapM_Some_1].
    + constructor; [by exists o | done].
Qed.

Lemma encode_value_total (v : value) :
  (∀ l, v = VRef l → l ∈ nodes) → is_Some (encode_value [] [] nodes v).
Proof.
  destruct v as [p|l]; simpl; [by eexists|]. intros H.
  destruct (index_of_elem l nodes (H l eq_refl)) as [i ->]. by eexists.
Qed.

Lemma encode_node_total (l : loc) (o : obj) :
  h !! l = Some o →
  cloneable o →
  (∀ l', l' ∈ succs h l → l' ∈ nodes) →
  is_Some (encode_node h [] [] nodes l).
Proof.
  intros Ho Hc Hsuccs. unfold encode_node. rewrite Ho.
  destruct o as [fields|[bytes det]|p|c]; try done.
  - assert (is_Some (mapM (encode_field [] [] nodes) fields)) as [sfields ->];
      [|by eexists].
    apply mapM_is_Some_2. apply Forall_forall. intros [k w] Hin.
    unfold compose, encode_field. simpl.
    destruct (encode_value_total w) as [sv ->]; [|by eexists].
    intros l' ->. apply Hsuccs. apply succs_spec. eauto.
  - simpl in Hc. subst det. by eexists.
Qed.

End encode_decode.

(** A serializable value is accepted by the codec. *)
Lemma serialize_graph_total (h : list obj) (v : value) :
  serializable h v →
  ∃ nodes snodes sroot,
    serialize_graph h [] [] v = Some (mkSerialized sroot snodes)
    ∧ NoDup nodes
    ∧ mapM (encode_node h [] [] nodes) nodes = Some snodes
    ∧ encode_value [] [] nodes v = Some sroot.
Proof.
  intros Hser. unfold serialize_graph. cbn [app].
  destruct (collect_total h [] (collect_fuel h (roots v)) (roots v) []) as [nodes Hnodes];
    [done|].
  rewrite Hnodes. cbn [mbind option_bind].
  destruct (collect_closed _ _ _ _ _ _ Hnodes) as (_ & Hroots & Hclosed & Hnd).
  assert (∀ l, l ∈ nodes → reachable h v l) as Hreach.
  { apply (collect_sound h [] (reachable h v) _ _ _ _) with (4 := Hnodes).
    - intros l l' Hl (fields & k & Hf & Hin)%succs_spec. by eapply reachable_field.
    - destruct v as [p|l0]; simpl; [by intros l H%elem_of_nil|].
      intros l ->%list_elem_of_singleton. constructor.
    - by intros l H%elem_of_nil. }
  assert (is_Some (mapM (encode_node h [] [] nodes) nodes)) as [snodes Hsn].
  { apply mapM_is_Some_2. apply Forall_forall. intros l Hl. unfold compose.
    destruct (Hser l (Hreach l Hl)) as (o & Ho & Hc).
    apply (encode_node_total h nodes l o Ho Hc).
    intros l' Hl'. destruct (Hclosed l Hl) as [H|H]; [by apply elem_of_nil in H|].
    destruct (H l' Hl') as [H'|H']; [done | by apply elem_of_nil in H']. }
  destruct (encode_value_total nodes v) as [sroot Hsr].
  { intros l ->. destruct (Hroots l) as [H|H]; [by left | done | by apply elem_of_nil in H]. }
  exists nodes, snodes, sroot. rewrite Hsn, Hsr. split; [done|]. split; [by apply Hnd; constructor|].
  done.
Qed.

Lemma reachable_fresh (h' : list obj) (base : nat) (v' : value) (l : loc) :
  (∀ l o, base ≤ l → h' !! l = Some o → fresh_obj base o) →
  fresh_value base v' →
  reachable h' v' l →
  base ≤ l.
Proof.
  intros Hobjs Hv Hr. induction Hr as [l|v l fields k l' Hr IH Hl Hin].
  - exact Hv.
  - specialize (IH Hv). specialize (Hobjs l _ IH Hl). simpl in Hobjs.
    rewrite Forall_forall in Hobjs. exact (Hobjs _ Hin).
Qed.

(** ** structuredClone *)

Lemma serializable_check_sound (h : list obj) (candidates : list loc) (v : value) :
  serializable_check h candidates v = true → serializable h v.
Proof.
  unfold serializable_check. intros [Hroots Hall]%andb_true_iff.
  rewrite forallb_forall in Hroots, Hall.
  assert (∀ l, reachable h v l → l ∈ candidates) as Hin.
  { intros l Hl. induction Hl as [l|v l fields k l' Hr IH Hlook Hfield].
    - eapply bool_decide_eq_true_1. apply Hroots. simpl. by left.
    - specialize (IH Hroots).
      apply list_elem_of_In, Hall, andb_true_iff in IH as [IH _].
      rewrite forallb_forall in IH. eapply bool_decide_eq_true_1. apply IH.
      apply list_elem_of_In, succs_spec. eauto. }
  intros l Hl. apply Hin, list_elem_of_In, Hall, andb_true_iff in Hl as [_ Hl].
  destruct (h !! l) as [o|]; [|done]. exists o. split; [done|].
  destruct o as [fields|[bytes det]|p|c]; try done. simpl in *. by destruct det.
Qed.


Lemma set_heap_same (s : state) : set_heap (heap s) s = s.
Proof. by destruct s. Qed.

(** With an empty transfer list, structuredClone is the codec applied back
    to back: nothing is partitioned, consumed or spliced. *)
Lemma structuredClone_no_transfer (s : state) (v : value) (options : option (list value))
    (payload : serialized) (h' : list obj) (v' : value) :
  options = None ∨ options = Some [] →
  serialize_graph (heap s) [] [] v = Some payload →
  core_deserialize (heap s) payload None = Some (h', v', []) →
  structuredClone v options s = (set_heap h' s, Ok v').
Proof.
  intros Hopt Hser Hdes.
  assert (StructuredSerializeOptions options = ret []) as Ho
    by (by destruct Hopt as [-> | ->]).
  unfold structuredClone, bind. rewrite Ho. unfold ret at 1.
  unfold serializeJsMessageData, serialize_payload, serialize_options, bind, ret.
  unfold call_core_serialize, core_serialize. cbn [from_option transfer_buffers].
  rewrite Hser, set_heap_same. cbn [serialize_transferables_loop fst snd]. unfold ret.
  unfold deserializeJsMessageData, bind. cbn [md_transferables md_data]. unfold ret.
  unfold call_core_deserialize. rewrite Hdes. done.
Qed.

(** C2: for a serializable value, cyclic or not, and an empty transfer list
    (given as no options at all or as [{transfer: []}]), structuredClone
    returns a value that is structurally equal to the original, reaches only
    objects allocated by the call, leaves the objects that existed before
    untouched, and adds nothing to the trace: no transport is involved. *)
Theorem C2_structuredClone_deep_copy (s : state) (v : value) (options : option (list value)) :
  serializable (heap s) v →
  options = None ∨ options = Some [] →
  ∃ s' v',
    structuredClone v options s = (s', Ok v')
    ∧ structurally_equal (heap s) v (heap s') v'
    ∧ shares_no_storage (heap s) (heap s') v'
    ∧ trace s' = trace s.
Proof.
  intros Hser Hopt.
  destruct (serialize_graph_total (heap s) v Hser)
    as (nodes & sns & sr & Hgraph & Hnd & Hsn & Hsr).
  set (base := length (heap s)).
  destruct (encode_decode_nodes (heap s) nodes base nodes sns Hsn) as (objs & Hdec & Hrel).
  destruct (encode_decode_value nodes base v sr Hsr) as (v' & Hv & Hvrel & Hvfresh).
  pose proof (Forall2_length _ _ _ (mapM_Some_1 _ _ _ Hsn)) as Hlen.
  assert (core_deserialize (heap s) (mkSerialized sr sns) None
          = Some (heap s ++ objs, v', [])) as Hdes.
  { unfold core_deserialize. cbn [from_option mapM snodes sroot length mret option_ret
      mbind option_bind]. fold base. rewrite <- Hlen, Hdec. cbn [mbind option_bind].
    rewrite Hv. done. }
  exists (set_heap (heap s ++ objs) s), v'.
  split; [by eapply structuredClone_no_transfer|].
  split; [|split; [split|done]].
  - exists (clone_rel nodes base). split; [done|]. split; [|split].
    + intros l l' (i & Hi & ->).
      destruct (Forall2_lookup_l _ _ _ _ _ Hrel Hi) as (o' & Ho' & o & Ho & Hor & _).
      exists o, o'. split; [done|]. split; [|done].
      cbn [heap set_heap]. rewrite lookup_app_r by (unfold base; lia).
      by replace (base + i - length (heap s)) with i by (unfold base; lia).
    + intros l l1 l2 (i & Hi & ->) (j & Hj & ->).
      by rewrite (NoDup_lookup _ _ _ _ Hnd Hi Hj).
    + intros l1 l2 l' (i & Hi & ->) (j & Hj & Heq).
      assert (i = j) as -> by lia. congruence.
  - cbn [heap set_heap]. by apply prefix_app_r.
  - intros l Hl. apply (reachable_fresh _ base v' l) with (3 := Hl); [|done].
    intros l0 o Hl0. cbn [heap set_heap]. rewrite lookup_app_r by (unfold base in *; lia).
    intros Ho.
    destruct (Forall2_lookup_r _ _ _ _ _ Hrel Ho) as (l1 & _ & o0 & _ & _ & Hf).
    exact Hf.
Qed.

Lemma C2_structuredClone_deep_copy_witness :
  let s := mkState [OPlain [("self", VRef 0); ("other", VRef 1); ("n", VPrim (PNumber 7))];
                    OPlain [("back", VRef 0); ("bytes", VRef 2)];
                    OArrayBuffer (mkArrayBuffer [Byte.x01; Byte.x02] false)] 0 [] in
  serializable (heap s) (VRef 0)
  ∧ ∃ s' v', structuredClone (VRef 0) None s = (s', Ok v')
             ∧ structurally_equal (heap s) (VRef 0) (heap s') v'
             ∧ shares_no_storage (heap s) (heap s') v'
             ∧ trace s' = trace s.
Proof.
  set (s := mkState [OPlain [("self", VRef 0); ("other", VRef 1); ("n", VPrim (PNumber 7))];
                     OPlain [("back", VRef 0); ("bytes", VRef 2)];
                     OArrayBuffer (mkArrayBuffer [Byte.x01; Byte.x02] false)] 0 []).
  assert (serializable (heap s) (VRef 0)) as Hser
    by (by apply (serializable_check_sound _ [0; 1; 2])).
  split; [exact Hser|].
  exact (C2_structuredClone_deep_copy s (VRef 0) None Hser (or_introl eq_refl)).
Defined.

(** * Further properties of the module *)

(** ** What serialization leaves alone *)

Lemma heap_length_update_port (l : loc) f (s : state) :
  length (heap (update_port l f s)) = length (heap s).
Proof.
  unfold update_port. destruct (get_port (heap s) l); [|done].
  unfold set_heap; simpl. by rewrite length_insert.
Qed.

Lemma sequence_object_state (items : list value) (s : state) :
  (sequence_object items s).1 = s.
Proof.
  induction items as [|[p|l] items IH]; [done..|].
  cbn [sequence_object]. unfold bind.
  destruct (sequence_object items s) as [s1 [ls|e]]; cbn [fst] in *; by subst.
Qed.

Lemma StructuredSerializeOptions_state (transfer : option (list value)) (s : state) :
  (StructuredSerializeOptions transfer s).1 = s.
Proof. destruct transfer; [apply sequence_object_state | done]. Qed.

Lemma serialize_payload_count (data : value) (ts : list loc) (s : state) :
  messageEventListenerCount (serialize_payload data ts s).1 = messageEventListenerCount s.
Proof.
  assert (∀ options, messageEventListenerCount (call_core_serialize data options s).1
                     = messageEventListenerCount s) as Hcall.
  { intros options. unfold call_core_serialize.
    by destruct (core_serialize (heap s) data options) as [h [[err|e]|r]]. }
  unfold serialize_payload, bind, serialize_options.
  destruct ts as [|t ts]; [apply Hcall|].
  destruct (serialize_partition_loop _ _ _ _ _) as [e|[hostObjs bufs]]; [done|].
  apply Hcall.
Qed.

Lemma serialize_transferables_loop_count (ts : list loc) (tabs : list backing_store)
    (k : nat) (acc : list Transferable) (s : state) :
  messageEventListenerCount (serialize_transferables_loop ts tabs k acc s).1
  = messageEventListenerCount s.
Proof.
  revert k acc s. induction ts as [|t ts IH]; intros k acc s; [done|].
  cbn [serialize_transferables_loop].
  destruct (isMessagePort (heap s) t).
  - destruct (port_id s t); [|done]. by rewrite IH, count_update_port.
  - destruct (isArrayBuffer (heap s) t); [apply IH | done].
Qed.

(** The three things serializeJsMessageData never does: use the transport,
    touch the listener counter, or change the transport id of a port that is
    not in the transfer list. *)
Lemma serializeJsMessageData_frame (data : value) (ts : list loc) (s : state) :
  trace (serializeJsMessageData data ts s).1 = trace s
  ∧ messageEventListenerCount (serializeJsMessageData data ts s).1
    = messageEventListenerCount s
  ∧ (∀ l, l ∉ ts → port_id (serializeJsMessageData data ts s).1 l = port_id s l).
Proof.
  unfold serializeJsMessageData, bind.
  pose proof (serialize_payload_trace data ts s) as Ht.
  pose proof (serialize_payload_count data ts s) as Hc.
  pose proof (serialize_payload_port_id data ts s) as Hp.
  destruct (serialize_payload data ts s) as [s0 [r|e]] eqn:E0; cbn [fst snd] in *.
  - pose proof (serialize_transferables_loop_trace ts r.2 0 [] s0) as Ht1.
    pose proof (serialize_transferables_loop_count ts r.2 0 [] s0) as Hc1.
    pose proof (serialize_transferables_loop_others ts r.2 0 [] s0) as Hp1.
    destruct (serialize_transferables_loop ts r.2 0 [] s0) as [s1 [d|e]] eqn:E1;
      unfold ret; cbn [fst snd] in *;
      (split; [congruence|]; split; [congruence|]; intros l Hl; by rewrite Hp1, Hp).
  - done.
Qed.

(** ** postMessage and the transport *)

(** X1: whatever the message and the second argument are, [postMessage]
    leaves the listener counter alone and adds at most one entry to the
    trace: a post on the transport id the port has, made only when the call
    returns normally.  A call that throws, and a call on a port that has no
    transport id (closed or transferred away), adds nothing. *)
Theorem X1_postMessage_posts_at_most_once (s : state) (this : loc) (message : value)
    (transferOrOptions : transferOrOptions_t) :
  let r := postMessage this message transferOrOptions s in
  messageEventListenerCount r.1 = messageEventListenerCount s
  ∧ (trace r.1 = trace s
     ∨ ∃ id data, r.2 = Ok tt ∧ port_id s this = Some id
                  ∧ trace r.1 = trace s ++ [EffPostMessage id data])
  ∧ (∀ e, r.2 = Throw e → trace r.1 = trace s)
  ∧ (port_id s this = None → trace r.1 = trace s).
Proof.
  cbv zeta.
  assert (messageEventListenerCount (postMessage this message transferOrOptions s).1
          = messageEventListenerCount s
          ∧ ((trace (postMessage this message transferOrOptions s).1 = trace s
              ∧ (port_id s this = None
                 ∨ ∃ e, (postMessage this message transferOrOptions s).2 = Throw e))
             ∨ ∃ id data, (postMessage this message transferOrOptions s).2 = Ok tt
                          ∧ port_id s this = Some id
                          ∧ trace (postMessage this message transferOrOptions s).1
                            = trace s ++ [EffPostMessage id data])) as [Hc Hcases].
  { unfold postMessage, bind, assertBranded.
    destruct (isMessagePort (heap s) this); [|split; [done|]; left; eauto].
    set (conv := match transferOrOptions with
                 | ArgSequence items => sequence_object items
                 | ArgDictionary transfer => StructuredSerializeOptions transfer
                 end).
    assert ((conv s).1 = s) as Hconv.
    { unfold conv. destruct transferOrOptions;
        [apply sequence_object_state | apply StructuredSerializeOptions_state]. }
    destruct (conv s) as [s0 [transfer|e]]; cbn [fst] in Hconv; subst s0;
      [|split; [done|]; left; eauto].
    destruct (bool_decide (this ∈ transfer)) eqn:Hin; [split; [done|]; left; eauto|].
    apply bool_decide_eq_false in Hin.
    destruct (serializeJsMessageData_frame message transfer s) as (Ht & Hc & Hp).
    specialize (Hp this Hin).
    destruct (serializeJsMessageData message transfer s) as [s1 [data|e]];
      cbn [fst snd] in *; [|split; [done|]; left; eauto].
    unfold get_state, modify. rewrite Hp.
    destruct (port_id s this) as [id|]; cbn [fst snd trace emit messageEventListenerCount].
    - split; [done|]. right. exists id, data. by rewrite Ht.
    - split; [done|]. left. eauto. }
  split; [done|].
  destruct Hcases as [[Ht Hwhy]|(id & data & Hok & Hid & Ht)].
  - split; [by left|]. split; done.
  - split; [right; eauto|]. split.
    + intros e He. congruence.
    + intros Hnone. congruence.
Qed.

Lemma X1_postMessage_posts_at_most_once_witness :
  let s := mkState [OMessagePort (mkMessagePort None false false false None false [])]
             0 [] in
  port_id s 0 = None
  ∧ trace (postMessage 0 (VPrim PNull) (ArgSequence []) s).1 = [].
Proof.
  intros s. assert (port_id s 0 = None) as H by reflexivity.
  split; [exact H|].
  exact (proj2 (proj2 (proj2
           (X1_postMessage_posts_at_most_once s 0 (VPrim PNull) (ArgSequence [])))) H).
Defined.

(** X2: a port that is not in the transfer list keeps its transport id
    across [postMessage], whether the call returns or throws. *)
Theorem X2_postMessage_keeps_other_ports (s : state) (this : loc) (message : value)
    (transfer : list loc) (q : loc) :
  q ∉ transfer →
  port_id (postMessage this message (ArgSequence (VRef <$> transfer)) s).1 q = port_id s q
  ∧ port_id (postMessage this message (ArgDictionary (Some (VRef <$> transfer))) s).1 q
    = port_id s q.
Proof.
  intros Hq.
  assert (∀ conv : M (list loc), conv s = (s, Ok transfer) →
    port_id ((assertBranded this ;;'
              transfer ←' conv ;;
              if bool_decide (this ∈ transfer)
              then throw (DOMException "Can not transfer self" "DataCloneError")
              else
                data ←' serializeJsMessageData message transfer ;;
                s ←' get_state ;;
                match port_id s this with
                | None => ret tt
                | Some id => modify (emit (EffPostMessage id data))
                end) s).1 q = port_id s q) as H.
  { intros conv Hconv. unfold bind, assertBranded.
    destruct (isMessagePort (heap s) this); [|done]. rewrite Hconv.
    destruct (bool_decide (this ∈ transfer)); [done|].
    destruct (serializeJsMessageData_frame message transfer s) as (_ & _ & Hp).
    specialize (Hp q Hq).
    destruct (serializeJsMessageData message transfer s) as [s1 [data|e]];
      cbn [fst] in *; [|done].
    unfold get_state, modify. by destruct (port_id s1 this). }
  split.
  - apply (H (sequence_object (VRef <$> transfer))). apply sequence_object_refs.
  - apply (H (StructuredSerializeOptions (Some (VRef <$> transfer)))).
    apply sequence_object_refs.
Qed.

Lemma X2_postMessage_keeps_other_ports_witness :
  let s := mkState [OMessagePort (new_port 1%Z); OMessagePort (new_port 2%Z);
                    OMessagePort (new_port 3%Z)] 0 [] in
  (2 ∉ [1])
  ∧ port_id (postMessage 0 (VPrim PNull) (ArgSequence (VRef <$> [1])) s).1 2 = Some 3%Z.
Proof.
  assert (2 ∉ [1]) as H by by_decide.
  split; [exact H|].
  exact (proj1 (X2_postMessage_keeps_other_ports
                  (mkState [OMessagePort (new_port 1%Z); OMessagePort (new_port 2%Z);
                            OMessagePort (new_port 3%Z)] 0 [])
                  0 (VPrim PNull) [1] 2 H)).
Defined.

(** ** What a successful serialization returns *)

Lemma serialize_transferables_loop_descriptors (ts : list loc) (tabs : list backing_store)
    (k : nat) (acc descs : list Transferable) (s s1 : state) :
  serialize_transferables_loop ts tabs k acc s = (s1, Ok descs) →
  ∃ new,
    descs = acc ++ new
    ∧ length new = length ts
    ∧ ∀ i t, ts !! i = Some t →
        (isMessagePort (heap s) t = true →
           ∃ id, port_id s t = Some id ∧ new !! i = Some (TransferMessagePort id)
                 ∧ port_id s1 t = None)
        ∧ (isMessagePort (heap s) t = false →
           isArrayBuffer (heap s) t = true ∧ ∃ d, new !! i = Some (TransferArrayBuffer d)).
Proof.
  revert k acc s. induction ts as [|t ts IH]; intros k acc s.
  - intros [= <- <-]. exists []. rewrite app_nil_r. split; [done|]. split; [done|].
    intros i t H. by rewrite lookup_nil in H.
  - cbn [serialize_transferables_loop].
    destruct (isMessagePort (heap s) t) eqn:Ep.
    + destruct (port_id s t) as [id|] eqn:Eid; [|done]. intros Hloop.
      pose proof (serialize_transferables_loop_stays_none ts tabs k
                    (ArrayPrototypePush acc (TransferMessagePort id)).1
                    (update_port t (set_id None) s) t) as Hnone.
      rewrite Hloop, port_id_consume in Hnone. cbn [fst] in Hnone.
      destruct (decide (t = t)); [|done]. specialize (Hnone eq_refl).
      apply IH in Hloop as (new & -> & Hlen & Hall).
      exists (TransferMessagePort id :: new). cbn [ArrayPrototypePush fst].
      split; [by rewrite <- app_assoc|]. split; [simpl; lia|].
      intros [|i] t' Ht'; simpl in Ht'.
      * injection Ht' as <-. split; [intros _; by exists id | congruence].
      * destruct (Hall i t' Ht') as [H1 H2].
        rewrite isMessagePort_update_port, isArrayBuffer_update_port in *.
        split; [|exact H2].
        intros Hp'. destruct (H1 Hp') as (id' & Hid' & Hnew & Hn).
        rewrite port_id_consume in Hid'. destruct (decide (t = t')); [done|].
        by exists id'.
    + destruct (isArrayBuffer (heap s) t) eqn:Eb; [|done].
      intros (new & -> & Hlen & Hall)%IH.
      exists (TransferArrayBuffer (tabs !! k) :: new). cbn [ArrayPrototypePush fst].
      split; [by rewrite <- app_assoc|]. split; [simpl; lia|].
      intros [|i] t' Ht'; simpl in Ht'.
      * injection Ht' as <-. split; [congruence|]. intros _. split; [done|]. eauto.
      * exact (Hall i t' Ht').
Qed.

(** X3: when serializeJsMessageData returns, the envelope has one descriptor
    per entry of the transfer list, in the order of the list: for a port, a
    messagePort descriptor with the transport id the port had before the call,
    and the port has no transport id any more; for any other entry, which
    then is a buffer, an arrayBuffer descriptor. *)
Theorem X3_serialize_descriptors_follow_transfer_list (s s1 : state) (data : value)
    (transferables : list loc) (messageData : MessageData) :
  serializeJsMessageData data transferables s = (s1, Ok messageData) →
  length (md_transferables messageData) = length transferables
  ∧ ∀ i t, transferables !! i = Some t →
      (isMessagePort (heap s) t = true →
         ∃ id, port_id s t = Some id
               ∧ md_transferables messageData !! i = Some (TransferMessagePort id)
               ∧ port_id s1 t = None)
      ∧ (isMessagePort (heap s) t = false →
         isArrayBuffer (heap s) t = true
         ∧ ∃ d, md_transferables messageData !! i = Some (TransferArrayBuffer d)).
Proof.
  unfold serializeJsMessageData, bind.
  pose proof (serialize_payload_port_id data transferables s) as Hid.
  pose proof (serialize_payload_isMessagePort data transferables s) as Hmp.
  pose proof (serialize_payload_isArrayBuffer data transferables s) as Hab.
  destruct (serialize_payload data transferables s) as [s0 [r|e]]; [|done].
  cbn [fst] in *.
  destruct (serialize_transferables_loop transferables r.2 0 [] s0) as [s2 [descs|e]] eqn:E;
    [|done].
  unfold ret. intros [= <- <-]. cbn [md_transferables].
  apply serialize_transferables_loop_descriptors in E as (new & -> & Hlen & Hall).
  split; [done|]. intros i t Ht. destruct (Hall i t Ht) as [H1 H2].
  rewrite Hmp, Hab, Hid in *. done.
Qed.

Lemma X3_serialize_descriptors_follow_transfer_list_witness :
  let s := mkState [OMessagePort (new_port 7%Z);
                    OArrayBuffer (mkArrayBuffer [Byte.x2a] false)] 0 [] in
  ∃ s1 messageData,
    serializeJsMessageData (VPrim PNull) [1; 0] s = (s1, Ok messageData)
    ∧ md_transferables messageData !! 1 = Some (TransferMessagePort 7%Z)
    ∧ port_id s1 0 = None.
Proof.
  set (s := mkState [OMessagePort (new_port 7%Z);
                     OArrayBuffer (mkArrayBuffer [Byte.x2a] false)] 0 []).
  destruct (serializeJsMessageData (VPrim PNull) [1; 0] s) as [s1 [messageData|e]] eqn:E;
    [|by vm_compute in E].
  exists s1, messageData. split; [done|].
  destruct (X3_serialize_descriptors_follow_transfer_list s s1 (VPrim PNull) [1; 0]
              messageData E) as [_ H].
  destruct (H 1 0 eq_refl) as [H1 _].
  destruct (H1 eq_refl) as (id & Hid & Hd & Hn).
  injection Hid as <-. done.
Defined.

(** ** Ports that cannot be transferred *)

Lemma serialize_transferables_loop_dead_port (ts : list loc) (tabs : list backing_store)
    (k : nat) (acc : list Transferable) (s : state) (t : loc) :
  t ∈ ts →
  isMessagePort (heap s) t = true →
  port_id s t = None →
  ∃ e, (serialize_transferables_loop ts tabs k acc s).2 = Throw e.
Proof.
  intros Hin. revert k acc s. induction ts as [|x ts IH]; intros k acc s Hp Hid;
    [by apply elem_of_nil in Hin|].
  cbn [serialize_transferables_loop].
  destruct (isMessagePort (heap s) x) eqn:Ex.
  - destruct (port_id s x) as [id|] eqn:Eid; [|eauto].
    apply elem_of_cons in Hin as [->|Hin]; [congruence|].
    apply IH; [done| |].
    + by rewrite isMessagePort_update_port.
    + rewrite port_id_consume. by destruct (decide (x = t)).
  - apply elem_of_cons in Hin as [->|Hin]; [congruence|].
    destruct (isArrayBuffer (heap s) x); [by apply IH | eauto].
Qed.

Lemma serialize_transferables_loop_port_twice (l1 l2 l3 : list loc)
    (tabs : list backing_store) (k : nat) (acc : list Transferable) (s : state) (p : loc) :
  isMessagePort (heap s) p = true →
  ∃ e, (serialize_transferables_loop (l1 ++ p :: l2 ++ p :: l3) tabs k acc s).2 = Throw e.
Proof.
  revert k acc s. induction l1 as [|x l1 IH]; intros k acc s Hp.
  - cbn [app serialize_transferables_loop]. rewrite Hp.
    destruct (port_id s p) as [id|] eqn:Eid; [|eauto].
    apply (serialize_transferables_loop_dead_port _ _ _ _ _ p).
    + apply elem_of_app. right. by left.
    + by rewrite isMessagePort_update_port.
    + rewrite port_id_consume. by destruct (decide (p = p)).
  - cbn [app serialize_transferables_loop]. fold (l1 ++ p :: l2 ++ p :: l3).
    destruct (isMessagePort (heap s) x).
    + destruct (port_id s x); [|eauto]. apply IH. by rewrite isMessagePort_update_port.
    + destruct (isArrayBuffer (heap s) x); [by apply IH | eauto].
Qed.

Lemma serialize_transferables_loop_exn (ts : list loc) (tabs : list backing_store)
    (k : nat) (acc : list Transferable) (s s1 : state) (e : exn) :
  serialize_transferables_loop ts tabs k acc s = (s1, Throw e) →
  ∃ message, e = DOMException message "DataCloneError".
Proof.
  revert k acc s. induction ts as [|t ts IH]; intros k acc s; [done|].
  cbn [serialize_transferables_loop].
  destruct (isMessagePort (heap s) t).
  - destruct (port_id s t); [apply IH|]. intros [= _ <-]. eauto.
  - destruct (isArrayBuffer (heap s) t); [apply IH|]. intros [= _ <-]. eauto.
Qed.

(** X4: a transfer list that holds a port without a transport id (closed, or
    transferred away before), or the same port twice, never serializes: when
    the first loop and the codec let the call through, the second loop throws
    a DataCloneError, and the trace is left alone. *)
Theorem X4_disentangled_or_repeated_port_rejected (s : state) (data : value)
    (transferables : list loc) (p : loc) :
  isMessagePort (heap s) p = true →
  (∃ r, (serialize_payload data transferables s).2 = Ok r) →
  (p ∈ transferables ∧ port_id s p = None)
  ∨ (∃ l1 l2 l3, transferables = l1 ++ p :: l2 ++ p :: l3) →
  ∃ s1 message,
    serializeJsMessageData data transferables s
      = (s1, Throw (DOMException message "DataCloneError"))
    ∧ trace s1 = trace s.
Proof.
  intros Hp [r Hr] Hcase.
  destruct (serializeJsMessageData_frame data transferables s) as (Ht & _ & _).
  revert Ht. unfold serializeJsMessageData, bind.
  pose proof (serialize_payload_port_id data transferables s p) as Hid.
  pose proof (serialize_payload_isMessagePort data transferables s p) as Hmp.
  destruct (serialize_payload data transferables s) as [s0 [r0|e]]; [|done].
  cbn [fst snd] in *. rewrite <- Hmp in Hp.
  assert (∃ e, (serialize_transferables_loop transferables r0.2 0 [] s0).2 = Throw e)
    as [e He].
  { destruct Hcase as [[Hin Hnone]|(l1 & l2 & l3 & ->)].
    - apply (serialize_transferables_loop_dead_port _ _ _ _ _ p); [done..|].
      by rewrite Hid.
    - by apply serialize_transferables_loop_port_twice. }
  destruct (serialize_transferables_loop transferables r0.2 0 [] s0) as [s2 [d|e']] eqn:E;
    [done|].
  cbn [fst snd] in *. injection He as ->.
  destruct (serialize_transferables_loop_exn _ _ _ _ _ _ _ E) as [message ->].
  intros Ht. by exists s2, message.
Qed.

Lemma X4_disentangled_or_repeated_port_rejected_witness :
  let s := mkState [OMessagePort (new_port 7%Z);
                    OMessagePort (set_id None (new_port 8%Z))] 0 [] in
  (∃ s1 message, serializeJsMessageData (VPrim PNull) [1] s
                 = (s1, Throw (DOMException message "DataCloneError")) ∧ trace s1 = [])
  ∧ (∃ s1 message, serializeJsMessageData (VPrim PNull) [0; 0] s
                   = (s1, Throw (DOMException message "DataCloneError")) ∧ trace s1 = []).
Proof.
  set (s := mkState [OMessagePort (new_port 7%Z);
                     OMessagePort (set_id None (new_port 8%Z))] 0 []).
  split.
  - apply (X4_disentangled_or_repeated_port_rejected s (VPrim PNull) [1] 1 eq_refl).
    + eexists. vm_compute. reflexivity.
    + left. split; [by left | reflexivity].
  - apply (X4_disentangled_or_repeated_port_rejected s (VPrim PNull) [0; 0] 0 eq_refl).
    + eexists. vm_compute. reflexivity.
    + right. by exists [], [], [].
Defined.

(** ** Receiving transferred ports *)

Lemma deserialize_transferables_loop_new_ports (descriptors : list Transferable)
    (acc : deserialize_acc) (s : state) :
  Forall is_port_descriptor descriptors →
  ∃ s1 acc1,
    deserialize_transferables_loop descriptors acc s = (s1, Ok acc1)
    ∧ acc_transferables acc1
      = acc_transferables acc ++ (VRef <$> seq (length (heap s)) (length descriptors))
    ∧ acc_arrayBufferIdsInTransferables acc1 = acc_arrayBufferIdsInTransferables acc
    ∧ heap s `prefix_of` heap s1
    ∧ ∀ i id, descriptors !! i = Some (TransferMessagePort id) →
        heap s1 !! (length (heap s) + i) = Some (OMessagePort (new_port id)).
Proof.
  revert acc s. induction descriptors as [|d descriptors IH]; intros acc s Hall.
  - exists s, acc. split; [done|]. simpl. rewrite app_nil_r.
    split; [done|]. split; [done|]. split; [done|]. intros i id H.
    by rewrite lookup_nil in H.
  - apply Forall_cons in Hall as [Hd Hall]. destruct d as [data|data|kind]; [|done..].
    cbn [deserialize_transferables_loop]. unfold bind, createMessagePort.
    match goal with |- context [deserialize_transferables_loop descriptors ?a ?s0] =>
      destruct (IH a s0 Hall) as (s1 & acc1 & -> & HT & Hids & Hpre & Hports) end.
    cbn [heap set_heap acc_transferables acc_arrayBufferIdsInTransferables
         ArrayPrototypePush fst] in *.
    rewrite length_app in HT, Hports. simpl in HT, Hports.
    exists s1, acc1. split; [done|]. split; [|split; [done|split]].
    + rewrite HT, <- app_assoc. simpl. by rewrite Nat.add_1_r.
    + etrans; [|exact Hpre]. by apply prefix_app_r.
    + intros [|i] id Hi; simpl in Hi.
      * injection Hi as ->. eapply prefix_lookup_Some; [|exact Hpre].
        rewrite Nat.add_0_r. by rewrite list_lookup_middle.
      * specialize (Hports i id Hi).
        by replace (length (heap s) + S i) with (length (heap s) + 1 + i) by lia.
Qed.

(** X5: for an envelope whose descriptors are all messagePort descriptors,
    the first loop of deserializeJsMessageData never throws, and when the
    codec decodes the payload the returned list holds exactly one new port
    per descriptor, in order: the i-th entry is a freshly allocated port, not
    enabled, not ref'd, without listeners, bound to the transport id the i-th
    descriptor carries.  Nothing is added to the trace. *)
Theorem X5_deserialize_materializes_ports_in_order (s s1 : state) (payload : serialized)
    (descriptors : list Transferable) (v : value) (transferables : list value) :
  Forall is_port_descriptor descriptors →
  deserializeJsMessageData (mkMessageData payload descriptors) s
    = (s1, Ok (v, transferables)) →
  transferables = VRef <$> seq (length (heap s)) (length descriptors)
  ∧ trace s1 = trace s
  ∧ ∀ i id, descriptors !! i = Some (TransferMessagePort id) →
      transferables !! i = Some (VRef (length (heap s) + i))
      ∧ heap s !! (length (heap s) + i) = None
      ∧ heap s1 !! (length (heap s) + i) = Some (OMessagePort (new_port id)).
Proof.
  intros Hall Hdes.
  pose proof (deserializeJsMessageData_frame (mkMessageData payload descriptors) s)
    as [_ Htrace].
  rewrite Hdes in Htrace. cbn [fst] in Htrace.
  revert Hdes. unfold deserializeJsMessageData, bind. cbn [md_transferables md_data].
  destruct (deserialize_transferables_loop_new_ports descriptors
              (mkDeserializeAcc [] [] [] []) s Hall)
    as (s0 & acc1 & Hloop & HT & Hids & Hpre & Hports).
  cbn [acc_transferables acc_arrayBufferIdsInTransferables app] in HT, Hids.
  assert ((match descriptors with
           | [] => ret (mkDeserializeAcc [] [] [] [])
           | d :: ds => deserialize_transferables_loop (d :: ds)
                          (mkDeserializeAcc [] [] [] [])
           end) s = (s0, Ok acc1)) as -> by (by destruct descriptors).
  match goal with |- context [call_core_deserialize payload ?o s0] =>
    pose proof (call_core_deserialize_frame payload o s0) as [Hpre2 _];
    destruct (call_core_deserialize payload o s0) as [s2 [r|e]] end; [|done].
  unfold ret. intros [= <- <- <-]. cbn [fst] in Hpre2.
  rewrite Hids, HT. cbn [deserialize_splice_loop].
  split; [done|]. split; [done|]. intros i id Hi.
  split; [|split].
  - rewrite list_lookup_fmap, lookup_seq_lt; [done|]. by eapply lookup_lt_Some.
  - apply lookup_ge_None_2. lia.
  - eapply prefix_lookup_Some; [|exact Hpre2]. by apply Hports.
Qed.

Lemma X5_deserialize_materializes_ports_in_order_witness :
  let s := mkState [OPlain []] 0 [] in
  let r := deserializeJsMessageData
             (mkMessageData (mkSerialized (SHostObject 1) [])
                [TransferMessagePort 4%Z; TransferMessagePort 9%Z]) s in
  Forall is_port_descriptor [TransferMessagePort 4%Z; TransferMessagePort 9%Z]
  ∧ r.2 = Ok (VRef 2, [VRef 1; VRef 2])
  ∧ heap r.1 !! 2 = Some (OMessagePort (new_port 9%Z)).
Proof.
  set (s := mkState [OPlain []] 0 []).
  set (env := mkMessageData (mkSerialized (SHostObject 1) [])
                [TransferMessagePort 4%Z; TransferMessagePort 9%Z]).
  assert (Forall is_port_descriptor [TransferMessagePort 4%Z; TransferMessagePort 9%Z])
    as Hall by (by repeat constructor).
  split; [exact Hall|]. split; [reflexivity|].
  destruct (X5_deserialize_materializes_ports_in_order s (deserializeJsMessageData env s).1
              (mkSerialized (SHostObject 1) [])
              [TransferMessagePort 4%Z; TransferMessagePort 9%Z]
              (VRef 2) [VRef 1; VRef 2] Hall) as (_ & _ & H).
  { vm_compute. reflexivity. }
  exact (proj2 (proj2 (H 1 9%Z eq_refl))).
Defined.

(** ** Moving a port through structuredClone *)

Lemma collect_done (h : list obj) (stop : list loc) (fuel : nat) (seen : list loc) :
  collect h stop fuel [] seen = Some seen.
Proof. by destruct fuel. Qed.

(** X6: [structuredClone(p, {transfer: [p]})] on an entangled port [p] returns
    a new port, allocated by the call, that is bound to the transport id [p]
    had, while [p] itself is left without a transport id: the id has exactly
    moved.  The transport is not used. *)
Theorem X6_structuredClone_moves_port (s : state) (p : loc) (id : rid) :
  port_id s p = Some id →
  let r := structuredClone (VRef p) (Some [VRef p]) s in
  r.2 = Ok (VRef (length (heap s)))
  ∧ heap r.1 !! length (heap s) = Some (OMessagePort (new_port id))
  ∧ port_id r.1 p = None
  ∧ length (heap r.1) = S (length (heap s))
  ∧ trace r.1 = trace s.
Proof.
  intros Hid. cbv zeta.
  pose proof (port_id_is_port _ _ _ Hid) as Hp.
  assert (isArrayBuffer (heap s) p = false) as Hab.
  { unfold isArrayBuffer, isMessagePort in *. by case_lookup (heap s) p. }
  assert (structuredClone (VRef p) (Some [VRef p]) s
          = (set_heap (heap (update_port p (set_id None) s) ++ [OMessagePort (new_port id)])
               (update_port p (set_id None) s),
             Ok (VRef (length (heap s))))) as ->.
  { unfold structuredClone, bind. cbn [StructuredSerializeOptions sequence_object].
    unfold bind, ret.
    unfold serializeJsMessageData, serialize_payload, serialize_options, bind.
    cbn [serialize_partition_loop]. rewrite Hab, Hp. cbn [ArrayPrototypePush fst app].
    unfold call_core_serialize, core_serialize.
    cbn [from_option hostObjects transferredArrayBuffers transfer_buffers].
    unfold serialize_graph, collect_fuel. cbn [roots length Nat.add collect app].
    rewrite (bool_decide_eq_true_2 (p ∈ [p])) by by left.
    rewrite orb_true_r, collect_done.
    cbn [mbind option_bind mapM mret option_ret encode_value index_of].
    rewrite ?Nat.eqb_refl. cbn [mbind option_bind]. rewrite set_heap_same.
    cbn [fst snd serialize_transferables_loop]. rewrite Hp, Hid.
    cbn [ArrayPrototypePush fst app]. unfold ret.
    unfold deserializeJsMessageData, bind.
    cbn [md_transferables md_data deserialize_transferables_loop].
    unfold bind, createMessagePort, ret.
    cbn [acc_hostObjects acc_transferredArrayBuffers acc_transferables
         acc_arrayBufferIdsInTransferables ArrayPrototypePush fst app].
    unfold call_core_deserialize, core_deserialize.
    cbn [from_option d_hostObjects d_transferredArrayBuffers mapM mret option_ret
         mbind option_bind snodes sroot length decode_value heap set_heap].
    cbn [lookup list_lookup fmap option_fmap option_map mbind option_bind].
    rewrite !app_nil_r. cbn [fst snd deserialize_splice_loop].
    rewrite heap_length_update_port. unfold set_heap, new_port. simpl. done. }
  cbn [fst snd]. unfold set_heap. cbn [heap trace].
  split; [done|]. split; [|split; [|split]].
  - rewrite <- (heap_length_update_port p (set_id None) s). by rewrite list_lookup_middle.
  - unfold port_id, get_port. cbn [heap].
    assert (p < length (heap s)) as Hlt.
    { apply isMessagePort_get_port in Hp as [port Hport].
      apply get_port_Some in Hport. by eapply lookup_lt_Some. }
    rewrite lookup_app_l by (by rewrite heap_length_update_port).
    fold (get_port (heap (update_port p (set_id None) s)) p).
    fold (port_id (update_port p (set_id None) s) p).
    rewrite port_id_consume. by destruct (decide (p = p)).
  - rewrite length_app, heap_length_update_port. simpl. lia.
  - unfold update_port. by destruct (get_port (heap s) p).
Qed.

Lemma X6_structuredClone_moves_port_witness :
  let s := mkState [OPlain []; OMessagePort (new_port 7%Z)] 0 [] in
  port_id s 1 = Some 7%Z
  ∧ (structuredClone (VRef 1) (Some [VRef 1]) s).2 = Ok (VRef 2)
  ∧ port_id (structuredClone (VRef 1) (Some [VRef 1]) s).1 1 = None.
Proof.
  set (s := mkState [OPlain []; OMessagePort (new_port 7%Z)] 0 []).
  destruct (X6_structuredClone_moves_port s 1 7%Z eq_refl) as (H1 & H2 & H3 & _).
  split; [reflexivity|]. split; [exact H1 | exact H3].
Defined.

(** ** Starting the receive loop *)

Lemma port_enabled_set_enabled (l : loc) (b : bool) (s : state) :
  isMessagePort (heap s) l = true → port_enabled (update_port l (set_enabled b) s) l = b.
Proof.
  intros [port Hport]%isMessagePort_get_port. unfold port_enabled.
  by rewrite (get_port_update_eq _ _ _ _ Hport).
Qed.

(** X7: [start()] on a port that is already enabled changes nothing and
    makes no task.  On a port that is not enabled it issues exactly one
    receive on the port's transport id and leaves the port enabled, so that a
    second [start()] changes nothing; and on a port without a transport id it
    issues no receive and leaves the port not enabled. *)
Theorem X7_start_once (s : state) (p : loc) :
  isMessagePort (heap s) p = true →
  (port_enabled s p = true → start p s = (s, Ok None))
  ∧ (port_enabled s p = false → port_id s p = None →
     (start p s).2 = Ok (Some TaskFulfilled)
     ∧ trace (start p s).1 = trace s
     ∧ port_enabled (start p s).1 p = false)
  ∧ (port_enabled s p = false → ∀ id, port_id s p = Some id →
     (start p s).2 = Ok (Some (TaskSuspended id))
     ∧ trace (start p s).1 = trace s ++ [EffRecvMessage id]
     ∧ port_enabled (start p s).1 p = true
     ∧ start p (start p s).1 = ((start p s).1, Ok None)).
Proof.
  intros Hp.
  assert (isMessagePort (heap (update_port p (set_enabled true) s)) p = true) as Hp1
    by (by rewrite isMessagePort_update_port).
  split; [|split].
  - intros Hen. unfold start, bind, assertBranded. by rewrite Hp, Hen.
  - intros Hen Hid. unfold start, bind, assertBranded, loop_head, loop_break.
    rewrite Hp, Hen, port_id_update_same_id, Hid by done. cbn [fst snd].
    split; [done|]. split; [by rewrite !trace_update_port|].
    by apply port_enabled_set_enabled.
  - intros Hen id Hid.
    assert (start p s = (emit (EffRecvMessage id) (update_port p (set_enabled true) s),
                         Ok (Some (TaskSuspended id)))) as E.
    { unfold start, bind, assertBranded, loop_head.
      by rewrite Hp, Hen, port_id_update_same_id, Hid by done. }
    rewrite E. cbn [fst snd].
    assert (port_enabled (emit (EffRecvMessage id) (update_port p (set_enabled true) s)) p
            = true) as Hen1 by (by apply (port_enabled_set_enabled p true s)).
    split; [done|]. split; [by cbn; rewrite trace_update_port|]. split; [done|].
    unfold start, bind, assertBranded. cbn [heap emit]. by rewrite Hp1, Hen1.
Qed.

Lemma X7_start_once_witness :
  let s := mkState [OMessagePort (new_port 5%Z)] 0 [] in
  isMessagePort (heap s) 0 = true
  ∧ trace (start 0 s).1 = [EffRecvMessage 5%Z]
  ∧ start 0 (start 0 s).1 = ((start 0 s).1, Ok None).
Proof.
  set (s := mkState [OMessagePort (new_port 5%Z)] 0 []).
  destruct (X7_start_once s 0 eq_refl) as (_ & _ & H).
  destruct (H eq_refl 5%Z eq_refl) as (_ & H2 & _ & H4).
  split; [reflexivity|]. split; [exact H2 | exact H4].
Defined.

(** ** Delivery *)

Lemma fold_emit (A : Type) (f : A → effect) (xs : list A) (s : state) :
  fold_left (fun s' x => emit (f x) s') xs s
  = mkState (heap s) (messageEventListenerCount s) (trace s ++ (f <$> xs)).
Proof.
  revert s. induction xs as [|x xs IH]; intros s.
  - simpl. rewrite app_nil_r. by destruct s.
  - simpl. rewrite IH. unfold emit. simpl. by rewrite <- app_assoc.
Qed.

Lemma dispatchEvent_effects (this : loc) (port : MessagePort) (event : MessageEvent)
    (s : state) :
  get_port (heap s) this = Some port →
  (dispatchEvent this event s).1
  = mkState (heap s) (messageEventListenerCount s)
      (trace s ++ listener_effects this (listeners port) event).
Proof.
  intros Hport. unfold dispatchEvent. rewrite Hport. cbn [fst].
  apply (fold_emit _ (fun kl => EffListener kl.2 this event)).
Qed.





(** X9: after an envelope that fails to deserialize, the loop has called the
    listeners registered for "messageerror" with the error, and no other
    listener, and is over; since [_enabled] is still set, a later [start()]
    changes nothing and issues no receive: the port does not deliver again. *)
Theorem X9_messageerror_ends_delivery (s : state) (p : loc) (port : MessagePort)
    (data : MessageData) (e : exn) :
  get_port (heap s) p = Some port →
  _enabled port = true →
  (deserializeJsMessageData data s).2 = Throw e →
  let s1 := (resume p (RecvData data) s).1 in
  (resume p (RecvData data) s).2 = TaskFulfilled
  ∧ trace s1
    = trace s ++ listener_effects p (listeners port)
                   (mkMessageEvent "messageerror" (DataError e) [])
  ∧ start p s1 = (s1, Ok None).
Proof.
  intros Hport Hen Hthrow. cbv zeta. unfold resume.
  destruct (deserializeJsMessageData_frame data s) as [Hpre Htrace].
  destruct (deserializeJsMessageData data s) as [s0 [[m t]|e']]; [done|].
  cbn [fst snd] in *. injection Hthrow as ->.
  pose proof (get_port_prefix _ _ _ _ Hpre Hport) as Hport0.
  rewrite (dispatchEvent_effects p port _ s0 Hport0).
  split; [done|]. split; [by rewrite Htrace|].
  assert (isMessagePort (heap s0) p = true) as Hp0 by (apply isMessagePort_get_port; eauto).
  match goal with |- start p ?st = _ => set (s1 := st) end.
  assert (get_port (heap s1) p = Some port) as Hport1 by exact Hport0.
  assert (isMessagePort (heap s1) p = true) as Hp1 by exact Hp0.
  unfold start, bind, assertBranded, port_enabled.
  by rewrite Hp1, Hport1, Hen.
Qed.

Lemma X9_messageerror_ends_delivery_witness :
  let port := set_enabled true (set_listeners [("messageerror", 43)] (new_port 5%Z)) in
  let s := mkState [OMessagePort port] 0 [] in
  let data := mkMessageData (mkSerialized (SHostObject 0) []) [] in
  (deserializeJsMessageData data s).2 = Throw (TypeError "Unable to deserialize")
  ∧ start 0 (resume 0 (RecvData data) s).1 = ((resume 0 (RecvData data) s).1, Ok None).
Proof.
  set (port := set_enabled true (set_listeners [("messageerror", 43)] (new_port 5%Z))).
  set (s := mkState [OMessagePort port] 0 []).
  set (data := mkMessageData (mkSerialized (SHostObject 0) []) []).
  split; [reflexivity|].
  exact (proj2 (proj2 (X9_messageerror_ends_delivery s 0 port data
                         (TypeError "Unable to deserialize") eq_refl eq_refl eq_refl))).
Defined.

(** X10: the one-shot flag lets exactly one interruption pass.  With
    [MessagePortReceiveMessageOnPortSymbol] set, an interrupted receive
    clears the flag, calls nothing, and issues the next receive; the
    interruption after that ends the loop with [_enabled] cleared, without
    calling the close callback or any listener. *)
Theorem X10_interruption_passes_once (s : state) (p : loc) (port : MessagePort) (id : rid) :
  get_port (heap s) p = Some port →
  _id port = Some id →
  MessagePortReceiveMessageOnPortSymbol port = true →
  let r1 := resume p (RecvThrow Interrupted) s in
  let r2 := resume p (RecvThrow Interrupted) r1.1 in
  r1.2 = TaskSuspended id
  ∧ trace r1.1 = trace s ++ [EffRecvMessage id]
  ∧ port_enabled r1.1 p = _enabled port
  ∧ r2.2 = TaskFulfilled
  ∧ trace r2.1 = trace r1.1
  ∧ port_enabled r2.1 p = false
  ∧ port_id r2.1 p = Some id.
Proof.
  intros Hport Hid Hflag. cbv zeta.
  pose proof (get_port_update_eq p (set_receiveMessageOnPort false) s port Hport) as Hport1.
  assert (resume p (RecvThrow Interrupted) s
          = (emit (EffRecvMessage id) (update_port p (set_receiveMessageOnPort false) s),
             TaskSuspended id)) as ->.
  { unfold resume. cbn [isInterrupted]. rewrite Hport, Hflag.
    unfold loop_head, port_id. by rewrite Hport1; cbn; rewrite Hid. }
  cbn [fst snd].
  split; [done|]. split; [by cbn; rewrite trace_update_port|].
  split; [by unfold port_enabled; cbn [heap emit]; rewrite Hport1|].
  unfold resume. cbn [isInterrupted heap emit]. rewrite Hport1.
  cbn [MessagePortReceiveMessageOnPortSymbol set_receiveMessageOnPort].
  unfold loop_break. cbn [fst snd].
  split; [done|]. split; [by rewrite trace_update_port|].
  pose proof (get_port_update_eq p (set_enabled false)
                (emit (EffRecvMessage id)
                   (update_port p (set_receiveMessageOnPort false) s))
                (set_receiveMessageOnPort false port) Hport1) as Hport2.
  unfold port_enabled, port_id. rewrite Hport2. by cbn.
Qed.

Lemma X10_interruption_passes_once_witness :
  let port := set_receiveMessageOnPort true (set_enabled true (new_port 5%Z)) in
  let s := mkState [OMessagePort port] 0 [] in
  (resume 0 (RecvThrow Interrupted) s).2 = TaskSuspended 5%Z
  ∧ (resume 0 (RecvThrow Interrupted) (resume 0 (RecvThrow Interrupted) s).1).2
    = TaskFulfilled.
Proof.
  set (port := set_receiveMessageOnPort true (set_enabled true (new_port 5%Z))).
  set (s := mkState [OMessagePort port] 0 []).
  destruct (X10_interruption_passes_once s 0 port 5%Z eq_refl eq_refl eq_refl)
    as (H1 & _ & _ & H4 & _).
  split; [exact H1 | exact H4].
Defined.

(** ** The listener counter *)

Lemma set_refed_same (port : MessagePort) :
  _refed port = true → set_refed true port = port.
Proof. destruct port. simpl. by intros ->. Qed.

Lemma addEventListener_message (s : state) (p : loc) (port : MessagePort) (l : listener) :
  get_port (heap s) p = Some port →
  messageEventListenerCount (addEventListener p "message" l s).1
    = (messageEventListenerCount s + 1)%Z
  ∧ trace (addEventListener p "message" l s).1 = trace s
  ∧ get_port (heap (addEventListener p "message" l s).1) p
    = Some (set_listeners
              (if bool_decide (("message", l) ∈ listeners port) then listeners port
               else listeners port ++ [("message", l)])
              (set_refed true port)).
Proof.
  intros Hport. unfold addEventListener, bind, modify, super_addEventListener.
  rewrite bool_decide_eq_true_2 by done. cbn [fst].
  set (s1 := set_count _ _).
  assert (get_port (heap s1) p = Some (set_refed true port)) as Hport1.
  { unfold s1, set_count. cbn [heap]. unfold port_refed. rewrite Hport.
    destruct (_refed port) eqn:Hr.
    - by rewrite set_refed_same.
    - by apply get_port_update_eq. }
  assert (messageEventListenerCount s1 = (messageEventListenerCount s + 1)%Z
          ∧ trace s1 = trace s) as [Hc Ht].
  { unfold s1, set_count. cbn [messageEventListenerCount trace].
    destruct (port_refed s p); by rewrite ?trace_update_port. }
  unfold modify. cbn [fst].
  rewrite count_update_port, trace_update_port, (get_port_update_eq _ _ _ _ Hport1).
  split; [done|]. split; [done|]. cbn [listeners set_refed].
  by destruct (bool_decide (("message", l) ∈ listeners port)); destruct port.
Qed.

Lemma removeEventListener_message (s : state) (p : loc) (port : MessagePort) (l : listener) :
  get_port (heap s) p = Some port →
  messageEventListenerCount (removeEventListener p "message" l s).1
    = (messageEventListenerCount s - 1)%Z
  ∧ trace (removeEventListener p "message" l s).1 = trace s
  ∧ get_port (heap (removeEventListener p "message" l s).1) p
    = Some (set_listeners (filter (fun kl => kl ≠ ("message", l)) (listeners port)) port).
Proof.
  intros Hport. unfold removeEventListener, bind, modify, super_removeEventListener.
  rewrite bool_decide_eq_true_2 by done. unfold modify. cbn [fst].
  rewrite count_update_port, trace_update_port.
  split; [done|]. split; [done|].
  by rewrite (get_port_update_eq p _ (set_count (messageEventListenerCount s - 1) s) port).
Qed.

Lemma filter_out_last (x : string * listener) (ls : list (string * listener)) :
  x ∉ ls → filter (fun kl => kl ≠ x) (ls ++ [x]) = ls.
Proof.
  intros Hx. rewrite filter_app, filter_cons_False, filter_nil, app_nil_r by (by intros H).
  induction ls as [|y ls IH]; [done|].
  apply not_elem_of_cons in Hx as [Hne Hx].
  rewrite filter_cons_True by done. by rewrite IH.
Qed.

(** X11: the listener counter counts calls, not listeners.  Registering the
    same "message" listener [n+1] times leaves it registered once and the
    port ref'd, yet adds [n+1] to the counter; one [removeEventListener]
    then unregisters it and takes only one off, so the counter stays [n]
    above where it was with no listener left, and the port stays ref'd. *)
Theorem X11_counter_counts_calls (s : state) (p : loc) (port : MessagePort) (l : listener)
    (n : nat) :
  get_port (heap s) p = Some port →
  ("message", l) ∉ listeners port →
  let s1 := Nat.iter (S n) (fun s' => (addEventListener p "message" l s').1) s in
  let s2 := (removeEventListener p "message" l s1).1 in
  messageEventListenerCount s1 = (messageEventListenerCount s + Z.of_nat (S n))%Z
  ∧ get_port (heap s1) p
    = Some (set_listeners (listeners port ++ [("message", l)]) (set_refed true port))
  ∧ messageEventListenerCount s2 = (messageEventListenerCount s + Z.of_nat n)%Z
  ∧ get_port (heap s2) p = Some (set_refed true port)
  ∧ trace s2 = trace s.
Proof.
  intros Hport Hnew. cbv zeta.
  assert (∀ m,
    let s1 := Nat.iter (S m) (fun s' => (addEventListener p "message" l s').1) s in
    messageEventListenerCount s1 = (messageEventListenerCount s + Z.of_nat (S m))%Z
    ∧ trace s1 = trace s
    ∧ get_port (heap s1) p
      = Some (set_listeners (listeners port ++ [("message", l)]) (set_refed true port)))
    as Hiter.
  { induction m as [|m IH]; cbv zeta.
    - change (Nat.iter 1 ?f ?x) with (f x). cbv beta.
      destruct (addEventListener_message s p port l Hport) as (Hc & Ht & Hp).
      rewrite bool_decide_eq_false_2 in Hp by done.
      split; [rewrite Hc; lia|]. done.
    - cbv zeta in IH. destruct IH as (Hc & Ht & Hp).
      change (Nat.iter (S (S m)) ?f ?x) with (f (Nat.iter (S m) f x)). cbv beta.
      destruct (addEventListener_message _ p _ l Hp) as (Hc' & Ht' & Hp').
      rewrite bool_decide_eq_true_2 in Hp'
        by (cbn; apply elem_of_app; right; by left).
      split; [rewrite Hc', Hc; lia|]. split; [congruence|].
      rewrite Hp'. by destruct port. }
  destruct (Hiter n) as (Hc & Ht & Hp).
  destruct (removeEventListener_message _ p _ l Hp) as (Hc' & Ht' & Hp').
  split; [done|]. split; [done|]. split; [rewrite Hc', Hc; lia|].
  split; [|congruence].
  rewrite Hp'. cbn [listeners set_listeners]. rewrite filter_out_last by done.
  by destruct port.
Qed.

Lemma X11_counter_counts_calls_witness :
  let s := mkState [OMessagePort (new_port 5%Z)] 0 [] in
  let s1 := Nat.iter 3 (fun s' => (addEventListener 0 "message" 42 s').1) s in
  messageEventListenerCount (removeEventListener 0 "message" 42 s1).1 = 2%Z
  ∧ get_port (heap (removeEventListener 0 "message" 42 s1).1) 0
    = Some (set_refed true (new_port 5%Z)).
Proof.
  set (s := mkState [OMessagePort (new_port 5%Z)] 0 []).
  assert (("message", 42) ∉ listeners (new_port 5%Z)) as Hnew by by_decide.
  destruct (X11_counter_counts_calls s 0 (new_port 5%Z) 42 2 eq_refl Hnew)
    as (_ & _ & H3 & H4 & _).
  split; [exact H3 | exact H4].
Defined.

(** X12: [refMessagePort] is idempotent, and it does not know about
    listeners.  Calling it twice with the same argument is the same as
    calling it once.  After [addEventListener("message", ...)], which sets
    [_refed] itself, [refMessagePort(true)] changes nothing, and
    [refMessagePort(false)] sets the shared counter to zero although the
    listener is still registered. *)
Theorem X12_ref_is_idempotent (s : state) (p : loc) (l : listener) (ref : bool) :
  isMessagePort (heap s) p = true →
  refMessagePort p ref (refMessagePort p ref s).1 = ((refMessagePort p ref s).1, Ok tt)
  ∧ (let s1 := (addEventListener p "message" l s).1 in
     refMessagePort p true s1 = (s1, Ok tt)
     ∧ messageEventListenerCount (refMessagePort p false s1).1 = 0%Z
     ∧ ∃ port, get_port (heap (refMessagePort p false s1).1) p = Some port
               ∧ ("message", l) ∈ listeners port).
Proof.
  intros Hp. split.
  - unfold refMessagePort.
    destruct ref, (port_refed s p) eqn:Hr; cbn [andb negb fst].
    + by rewrite Hr.
    + assert (port_refed (set_count (messageEventListenerCount s + 1)
                            (update_port p (set_refed true) s)) p = true) as ->; [|done].
      by apply (port_refed_set_refed p true s).
    + assert (port_refed (set_count 0 (update_port p (set_refed false) s)) p = false)
        as ->; [|done].
      by apply (port_refed_set_refed p false s).
    + by rewrite Hr.
  - cbv zeta. apply isMessagePort_get_port in Hp as [port Hport].
    destruct (addEventListener_message s p port l Hport) as (_ & _ & Hport1).
    set (s1 := (addEventListener p "message" l s).1) in *.
    assert (port_refed s1 p = true) as Hr by (unfold port_refed; by rewrite Hport1).
    split; [|split].
    + unfold refMessagePort. by rewrite Hr.
    + rewrite refMessagePort_unref by done. done.
    + rewrite refMessagePort_unref by done. cbn [fst]. eexists. split.
      * apply (get_port_update_eq p (set_refed false) s1 _ Hport1).
      * cbn. destruct (bool_decide (("message", l) ∈ listeners port)) eqn:Hin.
        -- by apply bool_decide_eq_true in Hin.
        -- apply elem_of_app. right. by left.
Qed.

Lemma X12_ref_is_idempotent_witness :
  let s := mkState [OMessagePort (new_port 5%Z)] 3 [] in
  isMessagePort (heap s) 0 = true
  ∧ messageEventListenerCount
      (refMessagePort 0 false (addEventListener 0 "message" 42 s).1).1 = 0%Z.
Proof.
  set (s := mkState [OMessagePort (new_port 5%Z)] 3 []).
  split; [reflexivity|].
  exact (proj1 (proj2 (proj2 (X12_ref_is_idempotent s 0 42 true eq_refl)))).
Defined.

(** ** Closing the transport resource *)

Lemma close_op_calls_app (id : rid) (t1 t2 : list effect) :
  close_op_calls id (t1 ++ t2) = close_op_calls id t1 + close_op_calls id t2.
Proof. unfold close_op_calls. by rewrite List.filter_app, length_app. Qed.

Lemma maybe_invoke_frame (p q : loc) (id : rid) (s : state) :
  port_id (nodeWorkerThreadMaybeInvokeCloseCb p s).1 q = port_id s q
  ∧ isMessagePort (heap (nodeWorkerThreadMaybeInvokeCloseCb p s).1) q
    = isMessagePort (heap s) q
  ∧ close_op_calls id (trace (nodeWorkerThreadMaybeInvokeCloseCb p s).1)
    = close_op_calls id (trace s).
Proof.
  split; [apply maybe_invoke_port_id|]. split; [apply maybe_invoke_isMessagePort|].
  assert (close_op_calls id (trace s ++ []) = close_op_calls id (trace s)) as Hnil
    by by rewrite app_nil_r.
  rewrite maybe_invoke_spec.
  destruct (get_port (heap s) p) as [port|]; [|done].
  destruct (nodeWorkerThreadCloseCb port) as [cb|]; [|done].
  destruct (nodeWorkerThreadCloseCbInvoked port); [done|].
  destruct (cb_throws cb); cbn [fst]; rewrite ?trace_update_port;
    unfold emit; cbn [trace]; rewrite close_op_calls_app;
    unfold close_op_calls at 2; simpl; lia.
Qed.

(** What a clean close seen by the loop leaves of the state: the close
    callback's doing, and [_enabled] cleared unless the callback threw. *)
Lemma resume_null_frame (p q : loc) (id : rid) (s : state) :
  port_id (resume p RecvNull s).1 q = port_id s q
  ∧ isMessagePort (heap (resume p RecvNull s).1) q = isMessagePort (heap s) q
  ∧ close_op_calls id (trace (resume p RecvNull s).1) = close_op_calls id (trace s).
Proof.
  unfold resume. destruct (maybe_invoke_frame p q id s) as (H1 & H2 & H3).
  destruct (nodeWorkerThreadMaybeInvokeCloseCb p s) as [s1 [[]|e]]; cbn [fst] in *;
    [|done].
  unfold loop_break. cbn [fst].
  by rewrite isMessagePort_update_port, port_id_update_same_id, trace_update_port.
Qed.

Lemma close_action_closed (p : loc) (id : rid) (s : state) (a : close_action) :
  isMessagePort (heap s) p = true →
  port_id s p = None →
  isMessagePort (heap (do_close_action p s a)) p = true
  ∧ port_id (do_close_action p s a) p = None
  ∧ close_op_calls id (trace (do_close_action p s a)) = close_op_calls id (trace s).
Proof.
  intros Hp Hid. destruct a; cbn [do_close_action].
  - by rewrite close_closed.
  - destruct (resume_null_frame p p id s) as (H1 & H2 & H3).
    by rewrite H1, H2, H3.
Qed.

Lemma close_actions_closed (p : loc) (id : rid) (actions : list close_action) (s : state) :
  isMessagePort (heap s) p = true →
  port_id s p = None →
  close_op_calls id (trace (fold_left (do_close_action p) actions s))
  = close_op_calls id (trace s).
Proof.
  revert s. induction actions as [|a actions IH]; intros s Hp Hid; [done|].
  simpl. destruct (close_action_closed p id s a Hp Hid) as (H1 & H2 & H3).
  by rewrite IH, H3.
Qed.

(** X13: the transport resource of a port is closed at most once.  Starting
    from an open port, any sequence of [close()] calls and clean closes seen
    by the receive loop calls [core.close] on the port's transport id exactly
    once if the sequence holds a [close()], and not at all otherwise: a clean
    close seen by the loop does not release the resource, and a second
    [close()] does not close it again. *)
Theorem X13_resource_closed_once (s : state) (p : loc) (id : rid)
    (actions : list close_action) :
  port_id s p = Some id →
  close_op_calls id (trace (fold_left (do_close_action p) actions s))
  = close_op_calls id (trace s) + (if existsb is_ActClose actions then 1 else 0).
Proof.
  revert s. induction actions as [|a actions IH]; intros s Hid; [simpl; lia|].
  pose proof (port_id_is_port _ _ _ Hid) as Hp.
  cbn [fold_left existsb]. destruct a; cbn [is_ActClose orb do_close_action].
  - rewrite (close_open _ _ _ Hid).
    destruct (maybe_invoke_frame p p id (update_port p (set_id None) (emit (EffClose id) s)))
      as (H1 & H2 & H3).
    rewrite close_actions_closed.
    + rewrite H3, trace_update_port. unfold emit. cbn [trace].
      rewrite close_op_calls_app.
      unfold close_op_calls at 2. simpl. by rewrite Z.eqb_refl.
    + by rewrite H2, isMessagePort_update_port.
    + rewrite H1, port_id_consume. by destruct (decide (p = p)).
  - destruct (resume_null_frame p p id s) as (H1 & H2 & H3).
    rewrite IH; [by rewrite H3 | by rewrite H1].
Qed.

Lemma X13_resource_closed_once_witness :
  let s := mkState [OMessagePort (new_port 5%Z)] 0 [] in
  close_op_calls 5%Z (trace (fold_left (do_close_action 0)
                             [ActPeerClosed; ActClose; ActClose] s)) = 1
  ∧ close_op_calls 5%Z (trace (fold_left (do_close_action 0) [ActPeerClosed] s)) = 0.
Proof.
  set (s := mkState [OMessagePort (new_port 5%Z)] 0 []).
  split.
  - exact (X13_resource_closed_once s 0 5%Z [ActPeerClosed; ActClose; ActClose] eq_refl).
  - exact (X13_resource_closed_once s 0 5%Z [ActPeerClosed] eq_refl).
Defined.

(** * timers.ts *)

Lemma timers_ids_below_initial : Timers.ids_below Timers.initial.
Proof. intros k [t Ht]. cbn in Ht. by rewrite lookup_empty in Ht. Qed.

Lemma timers_fresh_id (st : Timers.store) :
  Timers.ids_below st → Timers.timers st !! Timers.nextTimerId st = None.
Proof.
  intros Hinv. destruct (Timers.timers st !! Timers.nextTimerId st) eqn:E; [|done].
  assert (Timers.nextTimerId st < Timers.nextTimerId st)%Z by (apply Hinv; eauto). lia.
Qed.

(** X14: timer ids are never reused while their timer lives.  In a store
    where every registered id is below the counter (the module starts that
    way, and [setTimer], [clearTimer] and [onMessage] keep it so), [setTimer]
    returns an id that no registered timer has, registers exactly that timer
    under it without touching the others, and publishes one TIMER_START
    message with the same id, interval flag and delay. *)
Theorem X14_setTimer_returns_fresh_id (st : Timers.store) (cb : callback) (delay : Z)
    (interval : bool) (args : list value) (k : Z) (msg : Timers.Msg) :
  Timers.ids_below st →
  let r := Timers.setTimer cb delay interval args st in
  r.2 = Timers.nextTimerId st
  ∧ Timers.timers st !! r.2 = None
  ∧ Timers.timers r.1 !! r.2 = Some (Timers.mkTimer r.2 cb interval args delay)
  ∧ (∀ j, j ≠ r.2 → Timers.timers r.1 !! j = Timers.timers st !! j)
  ∧ Timers.log r.1
    = Timers.log st ++ [Timers.PubInternal "timers" (Timers.TimerStartMsg r.2 interval delay)]
  ∧ Timers.ids_below r.1
  ∧ Timers.ids_below (Timers.clearTimer k st)
  ∧ Timers.ids_below (Timers.onMessage msg st).1.
Proof.
  intros Hinv. cbv zeta. unfold Timers.setTimer. cbn.
  split; [done|]. split; [by apply timers_fresh_id|].
  split; [by rewrite lookup_insert_eq|].
  split; [by intros j Hj; rewrite lookup_insert_ne|]. split; [done|].
  split; [|split].
  - intros j [t Ht]. cbn in *.
    destruct (decide (j = Timers.nextTimerId st)) as [->|Hne]; [lia|].
    rewrite lookup_insert_ne in Ht by done.
    assert (j < Timers.nextTimerId st)%Z by (apply Hinv; eauto). lia.
  - intros j [t Ht]. cbn in *.
    destruct (decide (j = k)) as [->|Hne]; [by rewrite lookup_delete_eq in Ht|].
    rewrite lookup_delete_ne in Ht by done. apply Hinv. eauto.
  - unfold Timers.onMessage. destruct (Timers.command msg); try done.
    destruct (Timers.timers st !! Timers.timerReadyId msg) as [timer|]; [|done].
    destruct (cb_throws (Timers.cb timer)); [done|].
    destruct (Timers.timerReadyDone msg); [|done].
    intros j [t Ht]. cbn in *.
    destruct (decide (j = Timers.timerReadyId msg)) as [->|Hne];
      [by rewrite lookup_delete_eq in Ht|].
    rewrite lookup_delete_ne in Ht by done. apply Hinv. eauto.
Qed.

Lemma X14_setTimer_returns_fresh_id_witness :
  let st := (Timers.setTimeout (returning 7) 100 [] Timers.initial).1 in
  Timers.ids_below st
  ∧ (Timers.setTimer (returning 8) 50 true [] st).2 = 2%Z
  ∧ Timers.timers (Timers.setTimer (returning 8) 50 true [] st).1 !! 1%Z
    = Some (Timers.mkTimer 1 (returning 7) false [] 100).
Proof.
  set (st := (Timers.setTimeout (returning 7) 100 [] Timers.initial).1).
  assert (Timers.ids_below st) as Hinv.
  { destruct (X14_setTimer_returns_fresh_id Timers.initial (returning 7) 100 false [] 0
                (Timers.ready 0 true) timers_ids_below_initial) as (_ & _ & _ & _ & _ & H & _).
    exact H. }
  split; [exact Hinv|].
  destruct (X14_setTimer_returns_fresh_id st (returning 8) 50 true [] 0 (Timers.ready 0 true) Hinv)
    as (H1 & _ & _ & H4 & _).
  split; [exact H1|].
  rewrite (H4 1%Z) by (rewrite H1; discriminate). reflexivity.
Defined.



(** X16: [clearTimer] cancels, and always tells the privileged side.  After
    [clearTimer(id)] a ready message for [id] calls nothing and changes
    nothing, whatever was registered; the registry holds what it held without
    [id]; and one TIMER_CLEAR message for [id] is published even when no
    timer had that id. *)
Theorem X16_clearTimer_cancels (st : Timers.store) (k : Z) (done : bool) :
  let st1 := Timers.clearTimer k st in
  Timers.onMessage (Timers.ready k done) st1 = (st1, Timers.Returned)
  ∧ Timers.timers st1 = delete k (Timers.timers st)
  ∧ (Timers.timers st !! k = None → Timers.timers st1 = Timers.timers st)
  ∧ Timers.nextTimerId st1 = Timers.nextTimerId st
  ∧ Timers.log st1
    = Timers.log st ++ [Timers.PubInternal "timers" (Timers.TimerClearMsg k)].
Proof.
  cbv zeta. unfold Timers.clearTimer, Timers.onMessage. cbn.
  rewrite lookup_delete_eq. split; [done|]. split; [done|]. split; [|done].
  intros Hk. by apply delete_id.
Qed.



Lemma X16_clearTimer_cancels_witness :
  let st := (Timers.setTimeout (returning 7) 100 [] Timers.initial).1 in
  Timers.timers (Timers.clearTimer 1 st) = ∅
  ∧ Timers.timers (Timers.clearTimer 5 st) = Timers.timers st
  ∧ Timers.log (Timers.clearTimer 5 st)
    = [Timers.PubInternal "timers" (Timers.TimerStartMsg 1 false 100);
       Timers.PubInternal "timers" (Timers.TimerClearMsg 5)].
Proof.
  set (st := (Timers.setTimeout (returning 7) 100 [] Timers.initial).1).
  destruct (X16_clearTimer_cancels st 1 true) as (_ & H2 & _).
  destruct (X16_clearTimer_cancels st 5 true) as (_ & _ & H3 & _ & H5).
  split; [rewrite H2; vm_compute; reflexivity|].
  split; [apply H3; reflexivity | exact H5].
Defined.
